(** * JupyterLab document search extension: the command layer

    A shallow embedding of [packages/documentsearch-extension/src/index.ts]:
    the data declarations ([ISearchMatch], [ISearchProviderConstructor],
    [ISearchProvider], [IDisplayState]), the plugin's three commands and the
    functions of [namespace Private] ([openBoxOrExecute], [onStartCommand],
    [onNextCommand], [onPrevCommand]).

    JavaScript objects have identity and are mutated in place, so the
    embedding keeps a store: search instances and providers live in heaps
    indexed by references, and [activeSearches] maps widget ids to instance
    references.  The two [async] functions suspend at their [await]; a
    suspended body is kept in the store until the awaited promise settles.
    Every effect is also appended to a chronological log, so that "was not
    consulted" and "happened before" can be stated. *)

From stdpp Require Import base gmap list strings.
From Stdlib Require Import ZArith.

(** ** Data declarations *)

(** [Widget] of [@phosphor/widgets]; the commands read [id] and [node]. *)
Module Widget.
Record t : Type := mk { id : string; node : nat }.
End Widget.

(** [export interface ISearchMatch]: [text] and [fragment] are declared
    [readonly], [line], [column] and [index] are plain fields. *)
Record ISearchMatch : Type := {
  text : string;
  fragment : string;
  line : Z;
  column : Z;
  index : Z
}.

(** What an [ISearchProvider] exposes to readers: [matches] and
    [currentMatchIndex] ([number | null]). *)
Record ProviderData : Type := {
  matches : list ISearchMatch;
  currentMatchIndex : option Z
}.

(** [export interface ISearchProviderConstructor]: [new ()] and the static
    [canSearchOn].  The implementations are external; a provider class is
    described by the state [new ()] starts from and by what its two
    navigation operations do to that state when their promise settles:
    [Some d] when it resolves leaving the provider in [d], [None] when it
    rejects.  The value a resolved promise carries is discarded by the
    commands and is not modelled. *)
Record ISearchProviderConstructor : Type := {
  canSearchOn : Widget.t → bool;
  construct : ProviderData;
  highlightNext : ProviderData → option ProviderData;
  highlightPrevious : ProviderData → option ProviderData
}.

(** A provider object: its class and its current state. *)
Record ISearchProvider : Type := {
  class_of : ISearchProviderConstructor;
  data : ProviderData
}.

(** [export interface IDisplayState].  [currentIndex] receives the provider's
    [currentMatchIndex], so it ranges over [number | null]; the [RegExp] in
    [query] is kept as its source text. *)
Record IDisplayState : Type := {
  currentIndex : option Z;
  totalMatches : nat;
  caseSensitive : bool;
  useRegex : bool;
  inputText : string;
  query : string;
  errorMessage : string;
  forceFocus : bool
}.

(** Modelled from the spec: class [SearchInstance] ([./searchinstance] is not
    part of the sources).  An instance "owns one provider, one document, one
    display-state, and the overlay"; the overlay is its [searchWidget].  Of
    the overlay the commands use the [disposed] signal only: the slots
    connected to it are closures [() => { delete activeSearches[widgetId] }],
    each recorded by the [widgetId] it captured. *)
Record SearchInstance : Type := {
  widget : Widget.t;
  provider : nat;
  displayState : IDisplayState;
  searchWidget_disposed : list string;
  searchWidget_isDisposed : bool
}.

(** Modelled from the spec: class [SearchProviderRegistry]
    ([./searchproviderregistry] is not part of the sources): "holds an
    ordered set of provider constructors". *)
Abbreviation SearchProviderRegistry := (list ISearchProviderConstructor).

(** ** Asynchronous bodies *)

Inductive ProviderOp : Type := HighlightNext | HighlightPrevious.

(** The body of an [async] function, as a resumption: [Await p op k] calls
    operation [op] of provider [p], suspends, and continues with [k] once the
    returned promise has resolved; [Perform] is a synchronous statement. *)
Inductive Action : Type :=
| UpdateIndices (instance : nat).

Inductive Async : Type :=
| Return
| Perform (a : Action) (k : Async)
| Await (p : nat) (op : ProviderOp) (k : Async).

(** A body suspended at an [await]. *)
Record Suspended : Type := {
  awaited_provider : nat;
  awaited_op : ProviderOp;
  continuation : Async
}.

(** ** The store *)

Inductive Event : Type :=
| EvLookup (widgetId : string)
| EvGetProviderForWidget (w : Widget.t)
| EvNewProvider (p : nat)
| EvNewSearchInstance (instance : nat)
| EvAttach (instance : nat) (node : nat)
| EvFocusInput (instance : nat)
| EvCall (cid : nat) (p : nat) (op : ProviderOp)
| EvResolved (cid : nat)
| EvRejected (cid : nat)
| EvUpdateIndices (instance : nat)
| EvDisposed (instance : nat)
| EvTypeError.

(** [activeSearches] is [Private.ActiveSearchMap], the plain object
    [{ [key: string]: SearchInstance }] created in [activate]; the map holds
    the object's own properties, its values are references into
    [instances].  What a property read finds beyond the own properties is
    given by [inherited] and [read] below.  [calls] numbers the provider
    calls made so far and [pending] holds the bodies waiting for one of
    them.  [log] is chronological, oldest event first; [EvTypeError] is the
    raising of a [TypeError]. *)
Record World : Type := {
  activeSearches : gmap string nat;
  instances : gmap nat SearchInstance;
  providers : gmap nat ISearchProvider;
  pending : gmap nat Suspended;
  calls : nat;
  log : list Event
}.

Definition set_activeSearches (f : gmap string nat → gmap string nat) (σ : World) : World :=
  {| activeSearches := f (activeSearches σ); instances := instances σ;
     providers := providers σ; pending := pending σ; calls := calls σ;
     log := log σ |}.

Definition set_instances (f : gmap nat SearchInstance → gmap nat SearchInstance) (σ : World) : World :=
  {| activeSearches := activeSearches σ; instances := f (instances σ);
     providers := providers σ; pending := pending σ; calls := calls σ;
     log := log σ |}.

Definition set_providers (f : gmap nat ISearchProvider → gmap nat ISearchProvider) (σ : World) : World :=
  {| activeSearches := activeSearches σ; instances := instances σ;
     providers := f (providers σ); pending := pending σ; calls := calls σ;
     log := log σ |}.

Definition set_pending (f : gmap nat Suspended → gmap nat Suspended) (σ : World) : World :=
  {| activeSearches := activeSearches σ; instances := instances σ;
     providers := providers σ; pending := f (pending σ); calls := calls σ;
     log := log σ |}.

Definition set_calls (n : nat) (σ : World) : World :=
  {| activeSearches := activeSearches σ; instances := instances σ;
     providers := providers σ; pending := pending σ; calls := n;
     log := log σ |}.

Definition emit (es : list Event) (σ : World) : World :=
  {| activeSearches := activeSearches σ; instances := instances σ;
     providers := providers σ; pending := pending σ; calls := calls σ;
     log := log σ ++ es |}.

(** The store right after [activate]: [const activeSearches = {}]. *)
Definition initial : World :=
  {| activeSearches := ∅; instances := ∅; providers := ∅; pending := ∅;
     calls := 0; log := [] |}.

Definition set_displayState (f : IDisplayState → IDisplayState) (i : SearchInstance) : SearchInstance :=
  {| widget := widget i; provider := provider i;
     displayState := f (displayState i);
     searchWidget_disposed := searchWidget_disposed i;
     searchWidget_isDisposed := searchWidget_isDisposed i |}.

Definition set_forceFocus (b : bool) (d : IDisplayState) : IDisplayState :=
  {| currentIndex := currentIndex d; totalMatches := totalMatches d;
     caseSensitive := caseSensitive d; useRegex := useRegex d;
     inputText := inputText d; query := query d;
     errorMessage := errorMessage d; forceFocus := b |}.

Definition set_indices (c : option Z) (n : nat) (d : IDisplayState) : IDisplayState :=
  {| currentIndex := c; totalMatches := n;
     caseSensitive := caseSensitive d; useRegex := useRegex d;
     inputText := inputText d; query := query d;
     errorMessage := errorMessage d; forceFocus := forceFocus d |}.

(** An instance after its overlay has been disposed: the [disposed] signal
    has no connections left. *)
Definition disposed (i : SearchInstance) : SearchInstance :=
  {| widget := widget i; provider := provider i;
     displayState := displayState i;
     searchWidget_disposed := [];
     searchWidget_isDisposed := true |}.

Definition set_data (d : ProviderData) (p : ISearchProvider) : ISearchProvider :=
  {| class_of := class_of p; data := d |}.

(** A reference that no object of the heap has yet. *)
Definition fresh_ref {A} (heap : gmap nat A) : nat := fresh (dom heap).
Global Arguments fresh_ref : simpl never.

(** ** Property reads on the directory *)

(** The members that a plain object such as [{}] inherits from
    [Object.prototype] (ECMAScript, with its Annex B).  Each is a function
    or an object, hence truthy, and none is a search instance: it has no
    [focusInput] and no [provider]. *)
Definition Object_prototype : list string :=
  [ "constructor"; "hasOwnProperty"; "isPrototypeOf"; "propertyIsEnumerable";
    "toLocaleString"; "toString"; "valueOf"; "__proto__";
    "__defineGetter__"; "__defineSetter__"; "__lookupGetter__";
    "__lookupSetter__" ].

Definition inherited (name : string) : bool :=
  bool_decide (name ∈ Object_prototype).

(** What [activeSearches[widgetId]] yields when it is truthy. *)
Inductive Found : Type :=
| Instance (r : nat)
| Inherited (name : string).

(** [activeSearches[widgetId]]: the own property when there is one,
    otherwise the inherited member of that name, otherwise [undefined]. *)
Definition read (widgetId : string) (σ : World) : option Found :=
  match activeSearches σ !! widgetId with
  | Some r => Some (Instance r)
  | None => if inherited widgetId then Some (Inherited widgetId) else None
  end.

(** ** The declaration of a match *)





(** ** The missing classes, from the spec *)

(** Modelled from the spec: [SearchInstance.focusInput] "sets the force-focus
    flag consumed by the presentation layer on next render". *)
Definition focusInput (r : nat) (σ : World) : World :=
  match instances σ !! r with
  | Some i =>
      emit [EvFocusInput r]
        (set_instances <[r := set_displayState (set_forceFocus true) i]> σ)
  | None => σ
  end.

(** Modelled from the spec: [SearchInstance.updateIndices] "resynchronize[s]
    display state from the provider's post-operation [currentMatchIndex]",
    with [totalMatches] "the length of the provider's current match
    sequence".  The sentence is about an instance in use; what the method
    does once the overlay is disposed is not taken from it, and no property
    below that speaks of the code relies on that case. *)
Definition updateIndices (r : nat) (σ : World) : World :=
  match instances σ !! r with
  | Some i =>
      match providers σ !! provider i with
      | Some p =>
          emit [EvUpdateIndices r]
            (set_instances
               <[r := set_displayState
                        (set_indices (currentMatchIndex (data p))
                                     (length (matches (data p)))) i]> σ)
      | None => σ
      end
  | None => σ
  end.

(** Modelled from the spec: the registry's matching loop, "iterates the set
    in registration order" and stops at "the first constructor whose
    [canSearchOn(document)] is true". *)
Fixpoint findMatchingProvider (registry : SearchProviderRegistry) (w : Widget.t)
  : option ISearchProviderConstructor :=
  match registry with
  | [] => None
  | P :: rest => if canSearchOn P w then Some P else findMatchingProvider rest w
  end.

(** Modelled from the spec: [SearchProviderRegistry.getProviderForWidget]
    "returns a newly constructed provider instance for the first constructor
    whose [canSearchOn(document)] is true; returns nothing if none match".
    [new P()] allocates a provider object at a reference not yet in use. *)
Definition getProviderForWidget (registry : SearchProviderRegistry) (w : Widget.t)
    (σ : World) : option nat * World :=
  let σ := emit [EvGetProviderForWidget w] σ in
  match findMatchingProvider registry w with
  | None => (None, σ)
  | Some P =>
      let p := fresh_ref (providers σ) in
      (Some p,
       emit [EvNewProvider p]
         (set_providers <[p := {| class_of := P; data := construct P |}]> σ))
  end.

(** ** Sample data *)

(** The matches of ["foo"] in a document whose text is ["foo bar foo"]. *)
Definition foo_matches : list ISearchMatch :=
  [ {| text := "foo"; fragment := "foo bar foo"; line := 0; column := 0;
       index := 0 |};
    {| text := "foo"; fragment := "foo bar foo"; line := 0; column := 8;
       index := 1 |} ].

(** A provider class that accepts every document, starts with the two
    matches above and none selected, and moves its cursor circularly. *)
Definition anyProvider : ISearchProviderConstructor :=
  {| canSearchOn := λ _, true;
     construct := {| matches := foo_matches; currentMatchIndex := None |};
     highlightNext := λ d,
       Some {| matches := matches d;
               currentMatchIndex :=
                 match currentMatchIndex d with
                 | None => Some 0%Z
                 | Some n => Some ((n + 1) `mod` Z.of_nat (length (matches d)))%Z
                 end |};
     highlightPrevious := λ d,
       Some {| matches := matches d;
               currentMatchIndex :=
                 match currentMatchIndex d with
                 | None => Some (Z.of_nat (length (matches d)) - 1)%Z
                 | Some n => Some ((n - 1) `mod` Z.of_nat (length (matches d)))%Z
                 end |} |}.

(** A provider class for notebooks only, whose operations reject. *)
Definition notebookProvider : ISearchProviderConstructor :=
  {| canSearchOn := λ w, String.eqb (Widget.id w) "notebook";
     construct := {| matches := []; currentMatchIndex := Some 0%Z |};
     highlightNext := λ _, None;
     highlightPrevious := λ _, None |}.

Definition blankDisplay : IDisplayState :=
  {| currentIndex := Some 0%Z; totalMatches := 0; caseSensitive := false;
     useRegex := false; inputText := EmptyString; query := EmptyString;
     errorMessage := EmptyString; forceFocus := false |}.

Definition doc : Widget.t := Widget.mk "doc" 7.

(** ** The commands *)

Section Commands.

(** [const registry = new SearchProviderRegistry()] of [activate], and the
    display state a freshly constructed [SearchInstance] starts from. *)
Context (registry : SearchProviderRegistry).
Context (initialDisplayState : IDisplayState).

(** Modelled from the spec: [new SearchInstance(currentWidget,
    searchProvider)], a new object bound to the document and the provider,
    with a new overlay widget that nothing is connected to yet. *)
Definition new_SearchInstance (currentWidget : Widget.t) (searchProvider : nat)
    (σ : World) : nat * World :=
  let r := fresh_ref (instances σ) in
  (r,
   emit [EvNewSearchInstance r]
     (set_instances
        <[r := {| widget := currentWidget; provider := searchProvider;
                  displayState := initialDisplayState;
                  searchWidget_disposed := [];
                  searchWidget_isDisposed := false |}]> σ)).

(** [activeSearches[widgetId] = searchInstance;] of line 256, which sets the
    own property.  The statement is reached only after the read of line 246
    found nothing, so never with the name of an inherited member. *)
Definition activeSearches_assign (widgetId : string) (searchInstance : nat)
    (σ : World) : World :=
  set_activeSearches <[widgetId := searchInstance]> σ.

(** [delete activeSearches[widgetId];] *)
Definition activeSearches_delete (widgetId : string) (σ : World) : World :=
  set_activeSearches (delete widgetId) σ.

(** [searchInstance.searchWidget.disposed.connect(() => { delete
    activeSearches[widgetId]; })] *)
Definition connect_disposed (r : nat) (widgetId : string) (σ : World) : World :=
  set_instances
    (alter (λ i, {| widget := widget i; provider := provider i;
                    displayState := displayState i;
                    searchWidget_disposed := searchWidget_disposed i ++ [widgetId];
                    searchWidget_isDisposed := searchWidget_isDisposed i |}) r) σ.

(** [Widget.attach(searchInstance.searchWidget, currentWidget.node)] *)
Definition attach (r : nat) (node : nat) (σ : World) : World :=
  emit [EvAttach r node] σ.

(** [Private.onStartCommand].  In the branch whose read is truthy the
    source reads [activeSearches[widgetId]] twice and calls [focusInput] on
    what it found; on an inherited member that call raises a [TypeError],
    which ends the command. *)
Definition onStartCommand (currentWidget : Widget.t) (σ : World) : World :=
  let widgetId := Widget.id currentWidget in
  match read widgetId σ with
  | Some (Instance r) =>
      focusInput r (emit [EvLookup widgetId; EvLookup widgetId] σ)
  | Some (Inherited _) =>
      emit [EvLookup widgetId; EvLookup widgetId; EvTypeError] σ
  | None =>
      let σ := emit [EvLookup widgetId] σ in
      let '(searchProvider, σ) := getProviderForWidget registry currentWidget σ in
      match searchProvider with
      | None => σ
      | Some p =>
          let '(searchInstance, σ) := new_SearchInstance currentWidget p σ in
          let σ := activeSearches_assign widgetId searchInstance σ in
          let σ := connect_disposed searchInstance widgetId σ in
          let σ := attach searchInstance (Widget.node currentWidget) σ in
          focusInput searchInstance σ
      end
  end.

Definition perform (a : Action) (σ : World) : World :=
  match a with
  | UpdateIndices r => updateIndices r σ
  end.

(** Run a body up to its next [await]: the provider operation is called,
    which yields a promise numbered [calls σ], and the rest of the body is
    parked until that promise settles. *)
Fixpoint run (body : Async) (σ : World) : World :=
  match body with
  | Return => σ
  | Perform a k => run k (perform a σ)
  | Await p op k =>
      let cid := calls σ in
      emit [EvCall cid p op]
        (set_calls (S cid)
           (set_pending
              <[cid := {| awaited_provider := p; awaited_op := op;
                          continuation := k |}]> σ))
  end.

(** [Private.onNextCommand]:
    [await instance.provider.highlightNext(); instance.updateIndices();]
    On an inherited member [instance.provider] is [undefined] and the call
    on it raises a [TypeError] inside the body, before any provider is
    called; the promise of the command rejects. *)
Definition onNextCommand (instance : Found) (σ : World) : World :=
  match instance with
  | Instance r =>
      match instances σ !! r with
      | Some i =>
          run (Await (provider i) HighlightNext
                 (Perform (UpdateIndices r) Return)) σ
      | None => σ
      end
  | Inherited _ => emit [EvTypeError] σ
  end.

(** [Private.onPrevCommand]:
    [await instance.provider.highlightPrevious(); instance.updateIndices();] *)
Definition onPrevCommand (instance : Found) (σ : World) : World :=
  match instance with
  | Instance r =>
      match instances σ !! r with
      | Some i =>
          run (Await (provider i) HighlightPrevious
                 (Perform (UpdateIndices r) Return)) σ
      | None => σ
      end
  | Inherited _ => emit [EvTypeError] σ
  end.

(** [Private.openBoxOrExecute]: whatever truthy value the read yields is
    passed to [command]. *)
Definition openBoxOrExecute (currentWidget : Widget.t)
    (command : Found → World → World) (σ : World) : World :=
  let widgetId := Widget.id currentWidget in
  match read widgetId σ with
  | Some instance => command instance (emit [EvLookup widgetId] σ)
  | None => onStartCommand currentWidget (emit [EvLookup widgetId] σ)
  end.

(** The [execute] functions of the three commands added in [activate];
    the argument is [app.shell.currentWidget]. *)
Definition execute_start (currentWidget : option Widget.t) (σ : World) : World :=
  match currentWidget with
  | None => σ
  | Some w => onStartCommand w σ
  end.

Definition execute_next (currentWidget : option Widget.t) (σ : World) : World :=
  match currentWidget with
  | None => σ
  | Some w => openBoxOrExecute w onNextCommand σ
  end.

Definition execute_prev (currentWidget : option Widget.t) (σ : World) : World :=
  match currentWidget with
  | None => σ
  | Some w => openBoxOrExecute w onPrevCommand σ
  end.

(** ** The environment's moves *)

Definition provider_op (op : ProviderOp) (P : ISearchProviderConstructor)
  : ProviderData → option ProviderData :=
  match op with
  | HighlightNext => highlightNext P
  | HighlightPrevious => highlightPrevious P
  end.

(** The promise of call [cid] settles.  The provider's operation is
    complete at that point, so this is where the provider's state becomes
    what the operation leaves; if the promise resolves the parked body is
    resumed, if it rejects the [await] throws inside the body, which ends
    there. *)
Definition settle (cid : nat) (σ : World) : World :=
  match pending σ !! cid with
  | None => σ
  | Some s =>
      match providers σ !! awaited_provider s with
      | None => σ
      | Some p =>
          let σ := set_pending (delete cid) σ in
          match provider_op (awaited_op s) (class_of p) (data p) with
          | Some d =>
              run (continuation s)
                (emit [EvResolved cid]
                   (set_providers <[awaited_provider s := set_data d p]> σ))
          | None => emit [EvRejected cid] σ
          end
      end
  end.

(** The overlay of instance [r] is disposed ([Widget.dispose] of
    [@phosphor/widgets]): a no-op when already disposed, otherwise the
    [disposed] signal is emitted, which runs the connected slots in
    connection order, and the signal's connections are cleared.  The slots
    are those of lines 258-260; what the instance itself does on disposal
    is in the missing class and is not part of this step. *)
Definition dispose_searchWidget (r : nat) (σ : World) : World :=
  match instances σ !! r with
  | None => σ
  | Some i =>
      if searchWidget_isDisposed i then σ
      else
        let σ := emit [EvDisposed r] σ in
        let σ := foldl (λ σ widgetId, activeSearches_delete widgetId σ) σ
                   (searchWidget_disposed i) in
        set_instances <[r := disposed i]> σ
  end.

(** What can happen next: the user runs one of the three commands with
    some [app.shell.currentWidget], a pending promise settles, or an
    overlay is disposed. *)
Inductive Step : Type :=
| ExecuteStart (currentWidget : option Widget.t)
| ExecuteNext (currentWidget : option Widget.t)
| ExecutePrev (currentWidget : option Widget.t)
| Settle (cid : nat)
| Dispose (instance : nat).

Definition step (s : Step) (σ : World) : World :=
  match s with
  | ExecuteStart w => execute_start w σ
  | ExecuteNext w => execute_next w σ
  | ExecutePrev w => execute_prev w σ
  | Settle cid => settle cid σ
  | Dispose r => dispose_searchWidget r σ
  end.

Definition steps (l : list Step) (σ : World) : World :=
  foldl (λ σ s, step s σ) σ l.

Inductive reachable : World → Prop :=
| reachable_initial : reachable initial
| reachable_step s σ : reachable σ → reachable (step s σ).


(** The instance [onStartCommand] leaves in the heap when it creates one. *)
Definition started (w : Widget.t) (p : nat) : SearchInstance :=
  {| widget := w; provider := p;
     displayState := set_forceFocus true initialDisplayState;
     searchWidget_disposed := [Widget.id w];
     searchWidget_isDisposed := false |}.

(** The two navigation commands differ in the provider operation only. *)
Definition command_at (op : ProviderOp) : Found → World → World :=
  match op with
  | HighlightNext => onNextCommand
  | HighlightPrevious => onPrevCommand
  end.

(** The navigation command for [op], on the search instance [r]. *)
Definition command_of (op : ProviderOp) (r : nat) : World → World :=
  command_at op (Instance r).

(** [execute] of the navigation command that runs [op]. *)
Definition execute_of (op : ProviderOp) : option Widget.t → World → World :=
  match op with
  | HighlightNext => execute_next
  | HighlightPrevious => execute_prev
  end.

(** The provider class that the creating path of a start on [w] uses: none
    when the id of [w] names an inherited member, since the read is then
    truthy and the creating path is not taken; otherwise the registry's
    first match. *)
Definition creatable (w : Widget.t) : option ISearchProviderConstructor :=
  if inherited (Widget.id w) then None else findMatchingProvider registry w.

(** The widget a step is aimed at, by its id. *)
Definition target (s : Step) : option string :=
  match s with
  | ExecuteStart (Some w) | ExecuteNext (Some w) | ExecutePrev (Some w) =>
      Some (Widget.id w)
  | _ => None
  end.

(** Between [σ] and [σ'] operation [op] was called on the provider of
    instance [r], on behalf of a navigation command on [r] that is now
    parked behind the call. *)
Definition navigated (op : ProviderOp) (r : nat) (σ σ' : World) : Prop :=
  ∃ i, instances σ' !! r = Some i ∧
       (∃ es, log σ' = log σ ++ es ∧ EvCall (calls σ) (provider i) op ∈ es) ∧
       pending σ' !! calls σ =
         Some {| awaited_provider := provider i; awaited_op := op;
                 continuation := Perform (UpdateIndices r) Return |}.

(** Calling [op] on provider [p] from the body of a navigation command on
    instance [r]: the call is made and the rest of the body is parked. *)
Definition call (op : ProviderOp) (r p : nat) (σ : World) : World :=
  emit [EvCall (calls σ) p op]
    (set_calls (S (calls σ))
       (set_pending
          <[calls σ := {| awaited_provider := p; awaited_op := op;
                          continuation := Perform (UpdateIndices r) Return |}]>
          σ)).

(** ** Invariants of the reachable stores *)

(** In the log, an update of the display indices of [r] comes right after
    the resolution of a call that was made earlier on [r]'s provider. *)
Definition awaited_before_update (σ : World) : Prop :=
  ∀ before r after,
    log σ = before ++ EvUpdateIndices r :: after →
    ∃ earlier cid i op,
      before = earlier ++ [EvResolved cid] ∧
      instances σ !! r = Some i ∧
      EvCall cid (provider i) op ∈ earlier.

Record inv (σ : World) : Prop := {
  inv_entry k r :
    activeSearches σ !! k = Some r →
    ∃ i, instances σ !! r = Some i ∧ Widget.id (widget i) = k ∧
         searchWidget_disposed i = [k] ∧ searchWidget_isDisposed i = false;
  inv_live r i :
    instances σ !! r = Some i → searchWidget_isDisposed i = false →
    activeSearches σ !! Widget.id (widget i) = Some r;
  inv_provider r i :
    instances σ !! r = Some i → is_Some (providers σ !! provider i);
  inv_pending cid s :
    pending σ !! cid = Some s →
    EvCall cid (awaited_provider s) (awaited_op s) ∈ log σ ∧
    ∃ r i, continuation s = Perform (UpdateIndices r) Return ∧
           instances σ !! r = Some i ∧ provider i = awaited_provider s;
  inv_calls cid p op : EvCall cid p op ∈ log σ → cid < calls σ;
  inv_log : awaited_before_update σ
}.

Definition no_update (es : list Event) : Prop :=
  ∀ r, EvUpdateIndices r ∉ es.

Definition no_call (es : list Event) : Prop :=
  ∀ cid p op, EvCall cid p op ∉ es.

(** [σ'] has the instances of [σ] and no others, each bound to the same
    document and to the same provider as in [σ]. *)
Definition same_bindings (σ σ' : World) : Prop :=
  ∀ r,
    option_Forall2 (λ i i', widget i' = widget i ∧ provider i' = provider i)
      (instances σ !! r) (instances σ' !! r).


(** * Properties *)

(** Reduce the projections of a store built by the setters, and nothing
    else. *)
Ltac store_simpl :=
  cbn [emit attach connect_disposed activeSearches_assign
       activeSearches_delete call set_instances set_activeSearches
       set_providers set_pending set_calls
       activeSearches instances providers pending calls log] in *.

(** Two stores with the same parts are the same store. *)
Lemma world_eq (σ τ : World) :
  activeSearches σ = activeSearches τ →
  instances σ = instances τ →
  providers σ = providers τ →
  pending σ = pending τ →
  calls σ = calls τ →
  log σ = log τ →
  σ = τ.
Proof. destruct σ, τ; cbn. congruence. Qed.

(** ** The registry *)

Lemma findMatchingProvider_None reg w :
  findMatchingProvider reg w = None ↔
  Forall (λ P, canSearchOn P w = false) reg.
Proof.
  induction reg as [|P rest IH]; simpl.
  - split; [constructor | done].
  - destruct (canSearchOn P w) eqn:HP.
    + split; [done | by inversion 1; congruence].
    + rewrite IH. split; [by constructor | by inversion 1].
Qed.

Lemma findMatchingProvider_Some reg w P :
  findMatchingProvider reg w = Some P ↔
  ∃ before after,
    reg = before ++ P :: after ∧
    Forall (λ Q, canSearchOn Q w = false) before ∧
    canSearchOn P w = true.
Proof.
  induction reg as [|Q rest IH]; simpl.
  - split; [done | by intros ([|??] & ? & ? & _)].
  - destruct (canSearchOn Q w) eqn:HQ.
    + split.
      * intros [= ->]. by exists [], rest.
      * intros ([|Q' before] & after & Heq & Hall & HP); simplify_eq/=; [done|].
        inversion Hall; congruence.
    + rewrite IH. split.
      * intros (before & after & -> & Hall & HP).
        exists (Q :: before), after. repeat split; [by constructor | done].
      * intros ([|Q' before] & after & Heq & Hall & HP); simplify_eq/=.
        -- congruence.
        -- inversion Hall; subst. by exists before, after.
Qed.

Lemma fresh_ref_unused {A} (heap : gmap nat A) : heap !! fresh_ref heap = None.
Proof. apply not_elem_of_dom, is_fresh. Qed.

Lemma fresh_provider_unused (σ : World) :
  providers σ !! fresh_ref (providers σ) = None.
Proof. apply fresh_ref_unused. Qed.

Lemma fresh_instance_unused (σ : World) :
  instances σ !! fresh_ref (instances σ) = None.
Proof. apply fresh_ref_unused. Qed.

(** C6.  For every document and every registry, [getProviderForWidget]
    either returns a provider object that did not exist before, of the class
    of the first constructor in registration order whose [canSearchOn] holds
    for the document (every constructor registered before it refuses the
    document), or returns nothing, and then no registered constructor
    accepts the document.  Existing providers, the instances and the
    directory are left as they were. *)
Theorem getProviderForWidget_first_match (w : Widget.t) (σ : World) :
  match getProviderForWidget registry w σ with
  | (Some p, σ') =>
      ∃ before P after,
        registry = before ++ P :: after ∧
        Forall (λ Q, canSearchOn Q w = false) before ∧
        canSearchOn P w = true ∧
        providers σ !! p = None ∧
        providers σ' !! p = Some {| class_of := P; data := construct P |} ∧
        (∀ q, q ≠ p → providers σ' !! q = providers σ !! q) ∧
        instances σ' = instances σ ∧ activeSearches σ' = activeSearches σ
  | (None, σ') =>
      Forall (λ Q, canSearchOn Q w = false) registry ∧
      providers σ' = providers σ ∧
      instances σ' = instances σ ∧ activeSearches σ' = activeSearches σ
  end.
Proof.
  unfold getProviderForWidget.
  destruct (findMatchingProvider registry w) as [P|] eqn:Hfind.
  - apply findMatchingProvider_Some in Hfind as (before & after & ? & ? & ?).
    exists before, P, after. cbn.
    repeat split; try done.
    + apply fresh_provider_unused.
    + apply lookup_insert_eq.
    + intros q Hq. by apply lookup_insert_ne.
  - apply findMatchingProvider_None in Hfind. by cbn.
Qed.

(** Registration order decides between two constructors that both accept
    the document. *)
Example getProviderForWidget_order_dependent :
  let w := Widget.mk "notebook" 1 in
  let get reg :=
    let '(p, σ) := getProviderForWidget reg w initial in
    p ≫= λ p, providers σ !! p ≫= λ o, Some (currentMatchIndex (data o)) in
  get [notebookProvider; anyProvider] = Some (Some 0%Z) ∧
  get [anyProvider; notebookProvider] = Some None ∧
  get [] = None.
Proof. vm_compute. done. Qed.

Lemma focusInput_frame r σ :
  activeSearches (focusInput r σ) = activeSearches σ ∧
  providers (focusInput r σ) = providers σ ∧
  pending (focusInput r σ) = pending σ ∧
  calls (focusInput r σ) = calls σ.
Proof. unfold focusInput. by destruct (instances σ !! r). Qed.

Lemma focusInput_instances r σ :
  instances (focusInput r σ) =
  alter (set_displayState (set_forceFocus true)) r (instances σ).
Proof.
  unfold focusInput. destruct (instances σ !! r) as [i|] eqn:Hr; cbn.
  - apply map_eq; intros q. rewrite lookup_alter, lookup_insert.
    repeat case_decide; subst; try done. by rewrite Hr.
  - apply map_eq; intros q. rewrite lookup_alter.
    case_decide; subst; [by rewrite Hr | done].
Qed.

Lemma focusInput_log r σ :
  log (focusInput r σ) =
  log σ ++ (if instances σ !! r is Some _ then [EvFocusInput r] else []).
Proof.
  unfold focusInput. destruct (instances σ !! r); cbn; [done|].
  by rewrite app_nil_r.
Qed.

Lemma updateIndices_frame r σ :
  activeSearches (updateIndices r σ) = activeSearches σ ∧
  providers (updateIndices r σ) = providers σ ∧
  pending (updateIndices r σ) = pending σ ∧
  calls (updateIndices r σ) = calls σ.
Proof.
  unfold updateIndices. destruct (instances σ !! r) as [i|]; [|done].
  by destruct (providers σ !! provider i).
Qed.

Lemma onStartCommand_found w σ r :
  activeSearches σ !! Widget.id w = Some r →
  onStartCommand w σ =
  focusInput r (emit [EvLookup (Widget.id w); EvLookup (Widget.id w)] σ).
Proof. intros Hr. unfold onStartCommand, read. by rewrite Hr. Qed.

Lemma read_own k r σ :
  activeSearches σ !! k = Some r → read k σ = Some (Instance r).
Proof. intros Hr. unfold read. by rewrite Hr. Qed.

Lemma read_inherited k σ :
  activeSearches σ !! k = None → inherited k = true →
  read k σ = Some (Inherited k).
Proof. intros Hr Hk. unfold read. by rewrite Hr, Hk. Qed.

Lemma read_undefined k σ :
  activeSearches σ !! k = None → inherited k = false → read k σ = None.
Proof. intros Hr Hk. unfold read. by rewrite Hr, Hk. Qed.

(** On an id that names an inherited member and has no entry of its own,
    the start command raises after its two reads and does nothing else. *)
Lemma onStartCommand_inherited w σ :
  activeSearches σ !! Widget.id w = None →
  inherited (Widget.id w) = true →
  onStartCommand w σ =
  emit [EvLookup (Widget.id w); EvLookup (Widget.id w); EvTypeError] σ.
Proof.
  intros Hr Hk. unfold onStartCommand. by rewrite read_inherited.
Qed.

Lemma onStartCommand_no_provider w σ :
  activeSearches σ !! Widget.id w = None →
  inherited (Widget.id w) = false →
  findMatchingProvider registry w = None →
  onStartCommand w σ =
  emit [EvLookup (Widget.id w); EvGetProviderForWidget w] σ.
Proof.
  intros Hr Hk Hfind. unfold onStartCommand, getProviderForWidget.
  rewrite read_undefined by done.
  rewrite Hfind. unfold emit; cbn. by rewrite <-app_assoc.
Qed.

Lemma onStartCommand_new w σ P :
  activeSearches σ !! Widget.id w = None →
  inherited (Widget.id w) = false →
  findMatchingProvider registry w = Some P →
  let p := fresh_ref (providers σ) in
  let r := fresh_ref (instances σ) in
  onStartCommand w σ =
  {| activeSearches := <[Widget.id w := r]> (activeSearches σ);
     instances := <[r := started w p]> (instances σ);
     providers := <[p := {| class_of := P; data := construct P |}]> (providers σ);
     pending := pending σ;
     calls := calls σ;
     log := log σ ++ [EvLookup (Widget.id w); EvGetProviderForWidget w;
                      EvNewProvider p; EvNewSearchInstance r;
                      EvAttach r (Widget.node w); EvFocusInput r] |}.
Proof.
  intros Hr Hk Hfind p r.
  unfold onStartCommand, getProviderForWidget.
  rewrite read_undefined by done.
  rewrite Hfind. cbn. unfold focusInput. cbn.
  rewrite lookup_alter_eq, lookup_insert_eq. cbn.
  apply world_eq; store_simpl; try done.
  - by rewrite insert_alter_eq, insert_insert_eq.
  - by rewrite <-!app_assoc.
Qed.

Lemma command_of_spec op r σ i :
  instances σ !! r = Some i →
  command_of op r σ = call op r (provider i) σ.
Proof.
  intros Hi. unfold command_of.
  destruct op; cbn [command_at]; unfold onNextCommand, onPrevCommand;
    by rewrite Hi.
Qed.

Lemma command_of_unknown op r σ :
  instances σ !! r = None → command_of op r σ = σ.
Proof.
  intros Hi. unfold command_of.
  destruct op; cbn [command_at]; unfold onNextCommand, onPrevCommand;
    by rewrite Hi.
Qed.

Lemma command_at_inherited op k σ :
  command_at op (Inherited k) σ = emit [EvTypeError] σ.
Proof. by destruct op. Qed.

Lemma awaited_before_update_emit es σ :
  no_update es → awaited_before_update σ → awaited_before_update (emit es σ).
Proof.
  intros Hes Hσ before r after Heq. store_simpl.
  apply app_eq_inv in Heq as [(k & Hl & Hk)|(k & -> & Hk)].
  - destruct k as [|e k]; simpl in Hk.
    + exfalso. apply (Hes r). rewrite <-Hk. apply list_elem_of_here.
    + injection Hk as <- ->. by apply (Hσ _ _ _ Hl).
  - exfalso. apply (Hes r). rewrite Hk.
    apply elem_of_app; right. apply list_elem_of_here.
Qed.

Lemma inv_initial : inv initial.
Proof.
  split; store_simpl; try done.
  - intros cid p op Hin. by apply not_elem_of_nil in Hin.
  - intros [|??] ? ?; cbn; discriminate.
Qed.

(** Events other than calls and updates leave the invariants alone. *)
Lemma inv_emit es σ :
  no_update es → no_call es → inv σ → inv (emit es σ).
Proof.
  intros Hup Hcall [He Hl Hp Hpend Hc Hlog]. split; store_simpl; try done.
  - intros cid s Hs. destruct (Hpend _ _ Hs) as [Hin Hk].
    split; [|done]. apply elem_of_app; by left.
  - intros cid p op [Hin|Hin]%elem_of_app; [by eapply Hc|].
    by apply Hcall in Hin.
  - by apply awaited_before_update_emit.
Qed.

(** Writing the display state of an instance. *)
Lemma inv_set_displayState f r i σ :
  instances σ !! r = Some i →
  inv σ → inv (set_instances <[r := set_displayState f i]> σ).
Proof.
  intros Hi [He Hl Hp Hpend Hc Hlog]. split; store_simpl; try done.
  - intros k r' Hk. destruct (He _ _ Hk) as (i' & Hi' & ?).
    destruct (decide (r = r')) as [<-|Hne].
    + rewrite lookup_insert_eq. simplify_eq. eauto.
    + rewrite lookup_insert_ne by done. eauto.
  - intros r' i'. rewrite lookup_insert. case_decide; subst.
    + intros [= <-]; cbn. by apply Hl.
    + by apply Hl.
  - intros r' i'. rewrite lookup_insert. case_decide; subst.
    + intros [= <-]; cbn. by eapply Hp.
    + by apply Hp.
  - intros cid s Hs. destruct (Hpend _ _ Hs) as (Hin & r' & i' & Hk & Hi' & Hprov).
    split; [done|]. exists r'.
    destruct (decide (r = r')) as [<-|Hne].
    + rewrite lookup_insert_eq. simplify_eq. eauto.
    + rewrite lookup_insert_ne by done. eauto.
  - intros before r' after Heq.
    destruct (Hlog _ _ _ Heq) as (earlier & cid & i' & op & -> & Hi' & Hin).
    exists earlier, cid. store_simpl.
    destruct (decide (r = r')) as [<-|Hne].
    + rewrite lookup_insert_eq. simplify_eq. eauto.
    + rewrite lookup_insert_ne by done. eauto.
Qed.

(** Allocating a provider, or a provider changing its own state. *)
Lemma inv_set_provider p x σ :
  inv σ → inv (set_providers <[p := x]> σ).
Proof.
  intros [He Hl Hp Hpend Hc Hlog]. split; store_simpl; try done.
  intros r i Hi. rewrite lookup_insert_is_Some.
  destruct (decide (p = provider i)); [by left | right; eauto].
Qed.

(** Parking the body of a navigation command. *)
Lemma inv_call op r i σ :
  instances σ !! r = Some i →
  inv σ → inv (call op r (provider i) σ).
Proof.
  intros Hi [He Hl Hp Hpend Hc Hlog]. split; store_simpl; try done.
  - intros cid s. rewrite lookup_insert. case_decide; subst.
    + intros [= <-]; cbn. split; [apply elem_of_app; right; left|eauto].
    + intros Hs. destruct (Hpend _ _ Hs) as [Hin Hk].
      split; [apply elem_of_app; by left|done].
  - intros cid p op' [Hin|Hin]%elem_of_app.
    + apply Hc in Hin. lia.
    + apply list_elem_of_singleton in Hin. simplify_eq. lia.
  - apply (awaited_before_update_emit _ σ); [|done].
    intros r' Hin. apply list_elem_of_singleton in Hin. discriminate.
Qed.

Lemma inv_delete_pending cid σ :
  inv σ → inv (set_pending (delete cid) σ).
Proof.
  intros [He Hl Hp Hpend Hc Hlog]. split; store_simpl; try done.
  intros cid' s [_ Hs]%lookup_delete_Some. by apply Hpend.
Qed.

Local Ltac not_in_events H :=
  repeat (apply elem_of_cons in H as [H|H]; [discriminate H|]);
  by apply elem_of_nil in H.

Local Ltac other_events :=
  unfold no_update, no_call, not; intros;
  match goal with H : _ ∈ _ |- _ => not_in_events H end.

Lemma inv_onStartCommand w σ : inv σ → inv (onStartCommand w σ).
Proof.
  intros Hinv.
  destruct (activeSearches σ !! Widget.id w) as [r|] eqn:Hr.
  - rewrite (onStartCommand_found _ _ _ Hr).
    destruct (inv_entry _ Hinv _ _ Hr) as (i & Hi & _).
    unfold focusInput; cbn. rewrite Hi.
    apply inv_emit; [other_events..|].
    apply inv_set_displayState; [done|].
    apply inv_emit; [other_events..|done].
  - destruct (inherited (Widget.id w)) eqn:Hown.
    { rewrite (onStartCommand_inherited _ _ Hr Hown).
      apply inv_emit; [other_events..|done]. }
    destruct (findMatchingProvider registry w) as [P|] eqn:Hfind.
    + rewrite (onStartCommand_new _ _ _ Hr Hown Hfind).
      pose proof (fresh_instance_unused σ) as Hfresh.
      set (r := fresh_ref (instances σ)) in *.
      set (p := fresh_ref (providers σ)) in *.
      destruct Hinv as [He Hl Hp Hpend Hc Hlog]. split; store_simpl.
      * intros k r'. rewrite lookup_insert. case_decide; subst.
        -- intros [= <-]. rewrite lookup_insert_eq. by eexists.
        -- intros Hk. destruct (He _ _ Hk) as (i & Hi & ?).
           rewrite lookup_insert_ne by congruence. eauto.
      * intros r' i. rewrite lookup_insert. case_decide; subst.
        -- intros [= <-] _; cbn. apply lookup_insert_eq.
        -- intros Hi Hlive. rewrite lookup_insert_ne; [by apply Hl|].
           intros Heq. specialize (Hl _ _ Hi Hlive). congruence.
      * intros r' i. rewrite lookup_insert. case_decide; subst.
        -- intros [= <-]; cbn. rewrite lookup_insert_eq. by eexists.
        -- intros Hi. rewrite lookup_insert_is_Some.
           destruct (decide (p = provider i)); [by left | right; eauto].
      * intros cid s Hs.
        destruct (Hpend _ _ Hs) as (Hin & r' & i & Hk & Hi & Hprov).
        split; [apply elem_of_app; by left|].
        exists r', i. rewrite lookup_insert_ne by congruence. done.
      * intros cid p' op [Hin|Hin]%elem_of_app; [by eapply Hc|].
        not_in_events Hin.
      * intros before r' after Heq.
        assert (awaited_before_update
                  (emit [EvLookup (Widget.id w); EvGetProviderForWidget w;
                         EvNewProvider p; EvNewSearchInstance r;
                         EvAttach r (Widget.node w); EvFocusInput r] σ)) as H'
          by (apply awaited_before_update_emit; [other_events|done]).
        destruct (H' _ _ _ Heq) as (earlier & cid & i & op & -> & Hi & Hin).
        exists earlier, cid, i, op. store_simpl.
        rewrite lookup_insert_ne by congruence. done.
    + rewrite (onStartCommand_no_provider _ _ Hr Hown Hfind).
      apply inv_emit; [other_events..|done].
Qed.

(** The three outcomes of the read in [openBoxOrExecute]. *)
Lemma openBoxOrExecute_found op w r σ :
  activeSearches σ !! Widget.id w = Some r →
  openBoxOrExecute w (command_at op) σ =
  command_of op r (emit [EvLookup (Widget.id w)] σ).
Proof. intros Hr. unfold openBoxOrExecute. by rewrite (read_own _ r). Qed.

Lemma openBoxOrExecute_inherited op w σ :
  activeSearches σ !! Widget.id w = None →
  inherited (Widget.id w) = true →
  openBoxOrExecute w (command_at op) σ =
  emit [EvLookup (Widget.id w); EvTypeError] σ.
Proof.
  intros Hr Hk. unfold openBoxOrExecute. rewrite read_inherited by done.
  rewrite command_at_inherited. unfold emit; cbn. by rewrite <-app_assoc.
Qed.

Lemma openBoxOrExecute_undefined op w σ :
  activeSearches σ !! Widget.id w = None →
  inherited (Widget.id w) = false →
  openBoxOrExecute w (command_at op) σ =
  onStartCommand w (emit [EvLookup (Widget.id w)] σ).
Proof.
  intros Hr Hk. unfold openBoxOrExecute. by rewrite read_undefined.
Qed.

Lemma inv_openBoxOrExecute op w σ :
  inv σ → inv (openBoxOrExecute w (command_at op) σ).
Proof.
  intros Hinv.
  destruct (activeSearches σ !! Widget.id w) as [r|] eqn:Hr.
  - rewrite (openBoxOrExecute_found _ _ r) by done.
    destruct (inv_entry _ Hinv _ _ Hr) as (i & Hi & _).
    rewrite (command_of_spec _ _ _ i) by done.
    apply inv_call; [done|]. apply inv_emit; [other_events..|done].
  - destruct (inherited (Widget.id w)) eqn:Hk.
    + rewrite openBoxOrExecute_inherited by done.
      apply inv_emit; [other_events..|done].
    + rewrite openBoxOrExecute_undefined by done.
      apply inv_onStartCommand. apply inv_emit; [other_events..|done].
Qed.

(** The settling of a call made by a navigation command on [r]. *)
Lemma settle_unknown cid σ : pending σ !! cid = None → settle cid σ = σ.
Proof. intros Hs. unfold settle. by rewrite Hs. Qed.

Lemma settle_rejected cid σ s p :
  pending σ !! cid = Some s →
  providers σ !! awaited_provider s = Some p →
  provider_op (awaited_op s) (class_of p) (data p) = None →
  settle cid σ = emit [EvRejected cid] (set_pending (delete cid) σ).
Proof. intros Hs Hp Hop. unfold settle. by rewrite Hs, Hp, Hop. Qed.

Lemma settle_resolved cid σ s p d r i :
  pending σ !! cid = Some s →
  providers σ !! awaited_provider s = Some p →
  provider_op (awaited_op s) (class_of p) (data p) = Some d →
  continuation s = Perform (UpdateIndices r) Return →
  instances σ !! r = Some i →
  provider i = awaited_provider s →
  settle cid σ =
  emit [EvUpdateIndices r]
    (set_instances
       <[r := set_displayState
                (set_indices (currentMatchIndex d) (length (matches d))) i]>
       (emit [EvResolved cid]
          (set_providers <[awaited_provider s := set_data d p]>
             (set_pending (delete cid) σ)))).
Proof.
  intros Hs Hp Hop Hk Hi Hprov. unfold settle.
  rewrite Hs, Hp, Hop, Hk. cbn. unfold updateIndices; cbn.
  rewrite Hi, Hprov, lookup_insert_eq. done.
Qed.

Lemma inv_resolved_update cid r i op σ :
  instances σ !! r = Some i →
  EvCall cid (provider i) op ∈ log σ →
  inv σ → inv (emit [EvUpdateIndices r] (emit [EvResolved cid] σ)).
Proof.
  intros Hi Hcall Hinv.
  assert (inv (emit [EvResolved cid] σ)) as [He Hl Hp Hpend Hc Hlog]
    by (apply inv_emit; [other_events..|done]).
  split; try done.
  - intros cid' s Hs. destruct (Hpend _ _ Hs) as [Hin Hk].
    split; [apply elem_of_app; by left|done].
  - intros cid' p op' [Hin|Hin]%elem_of_app; [by eapply Hc|].
    apply list_elem_of_singleton in Hin. discriminate.
  - intros before r' after Heq. cbn in Heq.
    apply app_eq_inv in Heq as [(k & Hl' & Hk)|(k & -> & Hk)].
    + destruct k as [|e k]; simplify_eq/=.
      * rewrite app_nil_r in Hl'. subst. by exists (log σ), cid, i, op.
      * by apply (Hlog before r' (k ++ [])); cbn; rewrite app_nil_r.
    + destruct k as [|e k]; simplify_eq/=.
      * rewrite app_nil_r. by exists (log σ), cid, i, op.
      * by destruct k.
Qed.

Lemma inv_settle cid σ : inv σ → inv (settle cid σ).
Proof.
  intros Hinv.
  destruct (pending σ !! cid) as [s|] eqn:Hs;
    [|by rewrite settle_unknown].
  destruct (inv_pending _ Hinv _ _ Hs) as (Hcall & r & i & Hk & Hi & Hprov).
  destruct (inv_provider _ Hinv _ _ Hi) as [p Hp]. rewrite Hprov in Hp.
  destruct (provider_op (awaited_op s) (class_of p) (data p)) as [d|] eqn:Hop.
  - rewrite (settle_resolved _ _ _ _ _ _ _ Hs Hp Hop Hk Hi Hprov).
    set (f := set_displayState _).
    set (σ1 := set_providers _ _).
    assert (inv σ1) as Hinv1
      by by apply inv_set_provider, inv_delete_pending.
    apply (inv_set_displayState (set_indices (currentMatchIndex d)
                                   (length (matches d))) r i) in Hinv1;
      [|done].
    eapply (inv_resolved_update cid r (f i) (awaited_op s)) in Hinv1;
      [exact Hinv1| apply lookup_insert_eq | by cbn; rewrite Hprov].
  - rewrite (settle_rejected _ _ _ _ Hs Hp Hop).
    apply inv_emit; [other_events..|]. by apply inv_delete_pending.
Qed.


(** The disposal of an overlay. *)
Lemma dispose_unknown r σ :
  instances σ !! r = None → dispose_searchWidget r σ = σ.
Proof. intros Hi. unfold dispose_searchWidget. by rewrite Hi. Qed.

Lemma dispose_again r σ i :
  instances σ !! r = Some i → searchWidget_isDisposed i = true →
  dispose_searchWidget r σ = σ.
Proof. intros Hi Hd. unfold dispose_searchWidget. by rewrite Hi, Hd. Qed.

Lemma dispose_live r σ i :
  instances σ !! r = Some i → searchWidget_isDisposed i = false →
  dispose_searchWidget r σ =
  set_instances <[r := disposed i]>
    (foldl (λ σ widgetId, activeSearches_delete widgetId σ)
       (emit [EvDisposed r] σ) (searchWidget_disposed i)).
Proof. intros Hi Hd. unfold dispose_searchWidget. by rewrite Hi, Hd. Qed.

Lemma inv_dispose r σ : inv σ → inv (dispose_searchWidget r σ).
Proof.
  intros Hinv.
  destruct (instances σ !! r) as [i|] eqn:Hi; [|by rewrite dispose_unknown].
  destruct (searchWidget_isDisposed i) eqn:Hd;
    [by rewrite (dispose_again _ _ i)|].
  rewrite (dispose_live _ _ i) by done.
  pose proof (inv_live _ Hinv _ _ Hi Hd) as Hentry.
  destruct (inv_entry _ Hinv _ _ Hentry) as (i' & Hi' & _ & Hslots & _).
  assert (i' = i) as -> by congruence. rewrite Hslots. cbn [foldl].
  destruct Hinv as [He Hl Hp Hpend Hc Hlog]. split; store_simpl.
  - intros k r' [Hne Hk]%lookup_delete_Some.
    destruct (He _ _ Hk) as (j & Hj & Hid & ?).
    assert (r ≠ r') as Hr by (intros <-; congruence).
    rewrite lookup_insert_ne by done. eauto.
  - intros r' j. rewrite lookup_insert. case_decide; subst.
    + intros [= <-]. done.
    + intros Hj Hlive. specialize (Hl _ _ Hj Hlive).
      rewrite lookup_delete_ne; [done|]. congruence.
  - intros r' j. rewrite lookup_insert. case_decide; subst.
    + intros [= <-]. cbn [disposed provider]. by eapply Hp.
    + by apply Hp.
  - intros cid s Hs.
    destruct (Hpend _ _ Hs) as (Hin & r' & j & Hk & Hj & Hprov).
    split; [apply elem_of_app; by left|].
    exists r'. destruct (decide (r = r')) as [<-|Hne].
    + rewrite lookup_insert_eq. simplify_eq. by exists (disposed i).
    + rewrite lookup_insert_ne by done. eauto.
  - intros cid p op [Hin|Hin]%elem_of_app; [by eapply Hc|].
    not_in_events Hin.
  - intros before r' after Heq.
    assert (awaited_before_update (emit [EvDisposed r] σ)) as H'
      by (apply awaited_before_update_emit; [other_events|done]).
    destruct (H' _ _ _ Heq) as (earlier & cid & j & op & -> & Hj & Hin).
    exists earlier, cid. store_simpl.
    destruct (decide (r = r')) as [<-|Hne].
    + rewrite lookup_insert_eq. simplify_eq. by exists (disposed i), op.
    + rewrite lookup_insert_ne by done. eauto.
Qed.

Lemma inv_step s σ : inv σ → inv (step s σ).
Proof.
  intros Hinv. destruct s as [[w|]|[w|]|[w|]|cid|r]; cbn [step execute_start execute_next execute_prev]; try done.
  - by apply inv_onStartCommand.
  - by apply (inv_openBoxOrExecute HighlightNext).
  - by apply (inv_openBoxOrExecute HighlightPrevious).
  - by apply inv_settle.
  - by apply inv_dispose.
Qed.

Lemma reachable_inv σ : reachable σ → inv σ.
Proof. induction 1; [apply inv_initial | by apply inv_step]. Qed.

(** ** The directory across the operations *)

Lemma execute_of_Some op w σ :
  execute_of op (Some w) σ = openBoxOrExecute w (command_at op) σ.
Proof. by destruct op. Qed.

Lemma perform_frame a σ :
  activeSearches (perform a σ) = activeSearches σ ∧
  providers (perform a σ) = providers σ.
Proof.
  destruct a as [r]; cbn [perform].
  destruct (updateIndices_frame r σ) as (? & ? & _). done.
Qed.

Lemma run_frame body σ :
  activeSearches (run body σ) = activeSearches σ ∧
  providers (run body σ) = providers σ.
Proof.
  revert σ. induction body as [|a k IH|p op k _]; intros σ; cbn [run].
  - done.
  - destruct (IH (perform a σ)) as [-> ->]. apply perform_frame.
  - done.
Qed.

Lemma command_of_frame op r σ :
  activeSearches (command_of op r σ) = activeSearches σ ∧
  instances (command_of op r σ) = instances σ ∧
  providers (command_of op r σ) = providers σ.
Proof.
  destruct (instances σ !! r) as [i|] eqn:Hi.
  - by rewrite (command_of_spec _ _ _ i).
  - by rewrite command_of_unknown.
Qed.

(** What a start leaves in the directory. *)
Lemma onStartCommand_activeSearches w σ :
  activeSearches (onStartCommand w σ) =
  match activeSearches σ !! Widget.id w, creatable w with
  | None, Some _ => <[Widget.id w := fresh_ref (instances σ)]> (activeSearches σ)
  | _, _ => activeSearches σ
  end.
Proof.
  unfold creatable.
  destruct (activeSearches σ !! Widget.id w) as [r|] eqn:Hr.
  - rewrite (onStartCommand_found _ _ _ Hr).
    by destruct (focusInput_frame r
      (emit [EvLookup (Widget.id w); EvLookup (Widget.id w)] σ)) as [-> _].
  - destruct (inherited (Widget.id w)) eqn:Hown;
      [by rewrite (onStartCommand_inherited _ _ Hr Hown)|].
    destruct (findMatchingProvider registry w) as [P|] eqn:Hfind.
    + by rewrite (onStartCommand_new _ _ _ Hr Hown Hfind).
    + by rewrite (onStartCommand_no_provider _ _ Hr Hown Hfind).
Qed.

Lemma openBoxOrExecute_activeSearches op w σ :
  activeSearches (openBoxOrExecute w (command_at op) σ) =
  activeSearches (onStartCommand w σ).
Proof.
  destruct (activeSearches σ !! Widget.id w) as [r|] eqn:Hr.
  - rewrite (openBoxOrExecute_found _ _ r), (onStartCommand_found _ _ r)
      by done.
    destruct (command_of_frame op r (emit [EvLookup (Widget.id w)] σ))
      as [-> _].
    by destruct (focusInput_frame r
      (emit [EvLookup (Widget.id w); EvLookup (Widget.id w)] σ)) as [-> _].
  - destruct (inherited (Widget.id w)) eqn:Hown.
    + by rewrite openBoxOrExecute_inherited, onStartCommand_inherited.
    + rewrite openBoxOrExecute_undefined by done.
      rewrite !onStartCommand_activeSearches. store_simpl. by rewrite Hr.
Qed.

Lemma settle_frame cid σ :
  activeSearches (settle cid σ) = activeSearches σ.
Proof.
  unfold settle. destruct (pending σ !! cid) as [s|]; [|done].
  destruct (providers σ !! awaited_provider s) as [p|]; [|done].
  destruct (provider_op _ _ _) as [d|]; [|done].
  by destruct (run_frame (continuation s)
    (emit [EvResolved cid]
       (set_providers <[awaited_provider s:=set_data d p]>
          (set_pending (delete cid) σ)))) as [-> _].
Qed.

(** In a reachable store the overlay of a registered instance has exactly
    one slot, so disposing it deletes exactly its own entry. *)
Lemma dispose_activeSearches r σ :
  inv σ →
  activeSearches (dispose_searchWidget r σ) =
  match instances σ !! r with
  | Some i =>
      if searchWidget_isDisposed i then activeSearches σ
      else delete (Widget.id (widget i)) (activeSearches σ)
  | None => activeSearches σ
  end.
Proof.
  intros Hinv.
  destruct (instances σ !! r) as [i|] eqn:Hi; [|by rewrite dispose_unknown].
  destruct (searchWidget_isDisposed i) eqn:Hd;
    [by rewrite (dispose_again _ _ i)|].
  rewrite (dispose_live _ _ i) by done.
  pose proof (inv_live _ Hinv _ _ Hi Hd) as Hentry.
  destruct (inv_entry _ Hinv _ _ Hentry) as (i' & Hi' & _ & Hslots & _).
  assert (i' = i) as -> by congruence. by rewrite Hslots.
Qed.

(** In a reachable store no entry sits under the name of an inherited
    member: entries are made by the creating path of a start only. *)
Lemma reachable_own_ids σ :
  reachable σ →
  ∀ k r, activeSearches σ !! k = Some r → inherited k = false.
Proof.
  induction 1 as [|s σ Hreach IH]; intros k r Hk; [done|].
  pose proof (reachable_inv _ Hreach) as Hinv.
  assert (∀ w, activeSearches (onStartCommand w σ) !! k = Some r →
               inherited k = false) as Hstart.
  { intros w. rewrite onStartCommand_activeSearches. unfold creatable.
    destruct (activeSearches σ !! Widget.id w) eqn:Hw; [by apply IH|].
    destruct (inherited (Widget.id w)) eqn:Hown; [by apply IH|].
    destruct (findMatchingProvider registry w); [|by apply IH].
    intros [[<- _]|[_ Hold]]%lookup_insert_Some; [done|by eapply IH]. }
  destruct s as [[w|]|[w|]|[w|]|cid|r'];
    cbn [step execute_start execute_next execute_prev] in Hk.
  - by apply (Hstart w).
  - by eapply IH.
  - rewrite (openBoxOrExecute_activeSearches HighlightNext) in Hk.
    by apply (Hstart w).
  - by eapply IH.
  - rewrite (openBoxOrExecute_activeSearches HighlightPrevious) in Hk.
    by apply (Hstart w).
  - by eapply IH.
  - rewrite settle_frame in Hk. by eapply IH.
  - rewrite dispose_activeSearches in Hk by done.
    destruct (instances σ !! r') as [i|]; [|by eapply IH].
    destruct (searchWidget_isDisposed i); [by eapply IH|].
    apply lookup_delete_Some in Hk as [_ Hk]. by eapply IH.
Qed.

(** ** Reuse of a registered instance *)

Lemma onStartCommand_reuse w r σ :
  inv σ →
  activeSearches σ !! Widget.id w = Some r →
  activeSearches (onStartCommand w σ) = activeSearches σ ∧
  dom (instances (onStartCommand w σ)) = dom (instances σ) ∧
  instances (onStartCommand w σ) =
    alter (set_displayState (set_forceFocus true)) r (instances σ) ∧
  providers (onStartCommand w σ) = providers σ ∧
  log (onStartCommand w σ) =
    log σ ++ [EvLookup (Widget.id w); EvLookup (Widget.id w); EvFocusInput r].
Proof.
  intros Hinv Hr.
  rewrite (onStartCommand_found _ _ _ Hr).
  destruct (inv_entry _ Hinv _ _ Hr) as (i & Hi & _).
  set (σ1 := emit _ σ).
  destruct (focusInput_frame r σ1) as (-> & -> & _).
  rewrite focusInput_instances, focusInput_log. subst σ1. store_simpl.
  rewrite Hi, <-app_assoc. repeat split; try done.
  apply set_eq. intros q. rewrite !elem_of_dom, lookup_alter_is_Some. done.
Qed.

Lemma openBoxOrExecute_navigated op w r σ :
  inv σ →
  activeSearches σ !! Widget.id w = Some r →
  navigated op r σ (openBoxOrExecute w (command_at op) σ).
Proof.
  intros Hinv Hr. rewrite (openBoxOrExecute_found _ _ r) by done.
  destruct (inv_entry _ Hinv _ _ Hr) as (i & Hi & _).
  rewrite (command_of_spec _ _ _ i) by done.
  exists i. store_simpl. repeat split; [done| |apply lookup_insert_eq].
  exists [EvLookup (Widget.id w); EvCall (calls σ) (provider i) op].
  split; [by rewrite <-app_assoc|].
  apply elem_of_cons; right. apply list_elem_of_here.
Qed.

(** * The claims *)

(** C1.  In every reachable store a document has at most one live search
    instance: two instances whose overlays are not disposed and whose
    documents have the same id are the same object.  When the start command
    runs on a document whose id has an entry in [activeSearches], that
    instance is reused: the directory, the set of instances and the
    providers are unchanged, the registry is not consulted and nothing is
    constructed (the log gains two directory reads and the refocus only),
    and the only write is the force-focus flag of the instance found. *)
Theorem start_reuses_live_instance (σ : World) :
  reachable σ →
  (∀ r1 r2 i1 i2,
     instances σ !! r1 = Some i1 → instances σ !! r2 = Some i2 →
     searchWidget_isDisposed i1 = false →
     searchWidget_isDisposed i2 = false →
     Widget.id (widget i1) = Widget.id (widget i2) → r1 = r2) ∧
  (∀ w r,
     activeSearches σ !! Widget.id w = Some r →
     let σ' := execute_start (Some w) σ in
     activeSearches σ' = activeSearches σ ∧
     dom (instances σ') = dom (instances σ) ∧
     instances σ' =
       alter (set_displayState (set_forceFocus true)) r (instances σ) ∧
     providers σ' = providers σ ∧
     log σ' = log σ ++ [EvLookup (Widget.id w); EvLookup (Widget.id w);
                        EvFocusInput r]).
Proof.
  intros Hinv%reachable_inv. split.
  - intros r1 r2 i1 i2 H1 H2 Hl1 Hl2 Hid.
    pose proof (inv_live _ Hinv _ _ H1 Hl1) as E1.
    pose proof (inv_live _ Hinv _ _ H2 Hl2) as E2.
    rewrite Hid in E1. congruence.
  - intros w r Hr σ'. subst σ'. cbn [execute_start].
    by apply onStartCommand_reuse.
Qed.

(** C9.  Each of the three commands, executed while the shell has no
    current widget, returns the store it was given: nothing is read,
    written, queried or constructed, and the log gains no event. *)
Theorem commands_without_widget_are_noops (σ : World) :
  execute_start None σ = σ ∧
  execute_next None σ = σ ∧
  execute_prev None σ = σ.
Proof. done. Qed.

(** A step that is not aimed at the widget id [k] and is not a disposal
    leaves the entry of [k] as it is. *)
Lemma step_activeSearches_other s k σ :
  target s ≠ Some k → (∀ r, s ≠ Dispose r) →
  activeSearches (step s σ) !! k = activeSearches σ !! k.
Proof.
  intros Ht Hd.
  destruct s as [[w|]|[w|]|[w|]|cid|r]; cbn [step execute_start execute_next execute_prev target] in *; try done.
  - rewrite onStartCommand_activeSearches.
    destruct (activeSearches σ !! Widget.id w), (creatable w);
      try done.
    rewrite lookup_insert_ne; [done | congruence].
  - rewrite (openBoxOrExecute_activeSearches HighlightNext),
      onStartCommand_activeSearches.
    destruct (activeSearches σ !! Widget.id w), (creatable w);
      try done.
    rewrite lookup_insert_ne; [done | congruence].
  - rewrite (openBoxOrExecute_activeSearches HighlightPrevious),
      onStartCommand_activeSearches.
    destruct (activeSearches σ !! Widget.id w), (creatable w);
      try done.
    rewrite lookup_insert_ne; [done | congruence].
  - by rewrite settle_frame.
  - by destruct (Hd r).
Qed.

(** No step other than the disposal of its own overlay removes or replaces
    an entry. *)
Lemma step_keeps_entry s k r σ :
  inv σ → activeSearches σ !! k = Some r → s ≠ Dispose r →
  activeSearches (step s σ) !! k = Some r.
Proof.
  intros Hinv Hk Hs.
  destruct s as [[w|]|[w|]|[w|]|cid|r']; cbn [step execute_start execute_next execute_prev]; try done.
  - rewrite onStartCommand_activeSearches.
    destruct (activeSearches σ !! Widget.id w) eqn:Hw,
      (creatable w); try done.
    rewrite lookup_insert_ne; [done | congruence].
  - rewrite (openBoxOrExecute_activeSearches HighlightNext),
      onStartCommand_activeSearches.
    destruct (activeSearches σ !! Widget.id w) eqn:Hw,
      (creatable w); try done.
    rewrite lookup_insert_ne; [done | congruence].
  - rewrite (openBoxOrExecute_activeSearches HighlightPrevious),
      onStartCommand_activeSearches.
    destruct (activeSearches σ !! Widget.id w) eqn:Hw,
      (creatable w); try done.
    rewrite lookup_insert_ne; [done | congruence].
  - by rewrite settle_frame.
  - rewrite dispose_activeSearches by done.
    destruct (instances σ !! r') as [i|] eqn:Hi; [|done].
    destruct (searchWidget_isDisposed i) eqn:Hd; [done|].
    rewrite lookup_delete_ne; [done|].
    intros <-. rewrite (inv_live _ Hinv _ _ Hi Hd) in Hk. congruence.
Qed.

(** C2.  In every reachable store: disposing the overlay of the instance
    registered under an id removes that entry, so a lookup of the id then
    finds nothing; the id stays absent under every later step that is not a
    command aimed at a widget with that id; and an entry survives every step
    other than the disposal of its own overlay (start, next, previous on any
    widget, settling promises, disposing other overlays). *)
Theorem dispose_removes_entry (σ : World) :
  reachable σ →
  (∀ k r, activeSearches σ !! k = Some r →
     activeSearches (dispose_searchWidget r σ) !! k = None) ∧
  (∀ s k, activeSearches σ !! k = None → target s ≠ Some k →
     activeSearches (step s σ) !! k = None) ∧
  (∀ s k r, activeSearches σ !! k = Some r → s ≠ Dispose r →
     activeSearches (step s σ) !! k = Some r).
Proof.
  intros Hinv%reachable_inv. repeat split.
  - intros k r Hk. rewrite dispose_activeSearches by done.
    destruct (inv_entry _ Hinv _ _ Hk) as (i & -> & <- & _ & ->).
    apply lookup_delete_eq.
  - intros s k Hk Ht.
    assert ((∃ r, s = Dispose r) ∨ ∀ r, s ≠ Dispose r) as [[r ->]|Hd]
      by (destruct s; eauto).
    + cbn [step]. rewrite dispose_activeSearches by done.
      destruct (instances σ !! r) as [i|]; [|done].
      destruct (searchWidget_isDisposed i); [done|].
      apply lookup_delete_None. by right.
    + by rewrite step_activeSearches_other.
  - intros s k r Hk Hs. by apply step_keeps_entry.
Qed.

(** C3 (as the code has it).  In every reachable store, each of the two
    navigation commands looks the document's id up in the directory.  When
    an instance is found the navigation operation is called on that
    instance's provider and the rest of the command is parked behind the
    call; directory, instances and providers are untouched.  When the id
    has no entry and is not the name of an inherited member, the command
    does what the start command does and nothing more: no provider
    operation is called and nothing is parked; if the registry has a
    provider for the document a new instance with a new provider is
    registered under the id, otherwise directory and instances stay as they
    were. *)
Theorem navigation_executes_or_opens (σ : World) :
  reachable σ →
  ∀ op w,
    let σ' := execute_of op (Some w) σ in
    match activeSearches σ !! Widget.id w with
    | Some r =>
        navigated op r σ σ' ∧
        activeSearches σ' = activeSearches σ ∧
        instances σ' = instances σ ∧
        providers σ' = providers σ
    | None =>
        inherited (Widget.id w) = false →
        σ' = onStartCommand w (emit [EvLookup (Widget.id w)] σ) ∧
        pending σ' = pending σ ∧
        calls σ' = calls σ ∧
        (∀ cid p op', EvCall cid p op' ∈ log σ' → EvCall cid p op' ∈ log σ) ∧
        match findMatchingProvider registry w with
        | Some P =>
            ∃ r i,
              instances σ !! r = None ∧
              activeSearches σ' !! Widget.id w = Some r ∧
              instances σ' !! r = Some i ∧
              providers σ !! provider i = None ∧
              providers σ' !! provider i =
                Some {| class_of := P; data := construct P |}
        | None =>
            activeSearches σ' = activeSearches σ ∧
            instances σ' = instances σ
        end
    end.
Proof.
  intros Hinv%reachable_inv op w σ'. subst σ'.
  rewrite execute_of_Some.
  destruct (activeSearches σ !! Widget.id w) as [r|] eqn:Hr.
  - split; [by apply openBoxOrExecute_navigated|].
    rewrite (openBoxOrExecute_found _ _ r) by done.
    by destruct (command_of_frame op r (emit [EvLookup (Widget.id w)] σ))
      as (-> & -> & ->).
  - intros Hown. rewrite openBoxOrExecute_undefined by done.
    split; [done|].
    set (σ0 := emit [EvLookup (Widget.id w)] σ).
    assert (activeSearches σ0 !! Widget.id w = None) as Hr0 by done.
    destruct (findMatchingProvider registry w) as [P|] eqn:Hfind.
    + rewrite (onStartCommand_new _ _ _ Hr0 Hown Hfind). subst σ0. store_simpl.
      repeat split; try done.
      * intros cid p op' [Hin|Hin]%elem_of_app.
        -- apply elem_of_app in Hin as [Hin|Hin]; [done|not_in_events Hin].
        -- not_in_events Hin.
      * exists (fresh_ref (instances σ)), (started w (fresh_ref (providers σ))).
        cbn [started provider]. rewrite ?lookup_insert_eq.
        repeat split; try done; apply fresh_ref_unused.
    + rewrite (onStartCommand_no_provider _ _ Hr0 Hown Hfind). subst σ0. store_simpl.
      repeat split; try done.
      intros cid p op' [Hin|Hin]%elem_of_app.
      * apply elem_of_app in Hin as [Hin|Hin]; [done|not_in_events Hin].
      * not_in_events Hin.
Qed.

(** C5.  In every reachable store, every update of display indices in the
    log comes right after the resolution of a provider call that was made
    earlier on the provider of the same instance.  And a navigation command
    on an instance first calls the provider operation and stops there: the
    instances, hence their display indices, and the providers are as before.
    Only when that call settles does the rest run: if the promise resolves,
    leaving the provider in state [d], the display indices of the instance
    become those of [d] and the update is logged after the resolution; if it
    rejects, no instance is written. *)
Theorem navigation_updates_after_resolution (σ : World) :
  reachable σ →
  awaited_before_update σ ∧
  ∀ op r i,
    instances σ !! r = Some i →
    let σ1 := command_of op r σ in
    let cid := calls σ in
    log σ1 = log σ ++ [EvCall cid (provider i) op] ∧
    instances σ1 = instances σ ∧
    providers σ1 = providers σ ∧
    ∃ p, providers σ !! provider i = Some p ∧
      let σ2 := settle cid σ1 in
      match provider_op op (class_of p) (data p) with
      | Some d =>
          providers σ2 = <[provider i := set_data d p]> (providers σ) ∧
          instances σ2 =
            <[r := set_displayState
                     (set_indices (currentMatchIndex d) (length (matches d)))
                     i]> (instances σ) ∧
          log σ2 = log σ1 ++ [EvResolved cid; EvUpdateIndices r]
      | None =>
          providers σ2 = providers σ ∧
          instances σ2 = instances σ ∧
          log σ2 = log σ1 ++ [EvRejected cid]
      end.
Proof.
  intros Hinv%reachable_inv. split; [apply (inv_log _ Hinv)|].
  intros op r i Hi σ1 cid. subst σ1 cid.
  rewrite (command_of_spec _ _ _ i) by done.
  destruct (inv_provider _ Hinv _ _ Hi) as [p Hp].
  repeat split; try done. exists p. split; [done|].
  set (s := {| awaited_provider := provider i; awaited_op := op;
               continuation := Perform (UpdateIndices r) Return |}).
  assert (pending (call op r (provider i) σ) !! calls σ = Some s) as Hs
    by apply lookup_insert_eq.
  destruct (provider_op op (class_of p) (data p)) as [d|] eqn:Hop; cbn zeta.
  - rewrite (settle_resolved _ _ s p d r i Hs); try done.
    store_simpl. by rewrite <-app_assoc.
  - by rewrite (settle_rejected _ _ s p Hs).
Qed.

(** C7 (as the code has it).  Registration is the plain assignment
    [activeSearches[widgetId] = searchInstance], which never fails.  For an
    id that is not the name of an inherited member: under the precondition
    that the id has no entry the assignment inserts exactly that one entry
    (the id then maps to the instance, every other id is as before and the
    directory has one entry more).  The start command checks the lookup
    first: when the id has an entry it does not assign and the directory is
    unchanged; when the read finds nothing and the registry yields a
    provider, it assigns an instance that did not exist before. *)
Theorem registration_is_guarded_assignment (w : Widget.t) (σ : World) :
  (∀ k r,
     activeSearches σ !! k = None →
     inherited k = false →
     let σ' := activeSearches_assign k r σ in
     activeSearches σ' !! k = Some r ∧
     (∀ k', k' ≠ k → activeSearches σ' !! k' = activeSearches σ !! k') ∧
     size (activeSearches σ') = S (size (activeSearches σ))) ∧
  (∀ r,
     activeSearches σ !! Widget.id w = Some r →
     activeSearches (onStartCommand w σ) = activeSearches σ) ∧
  (∀ P,
     activeSearches σ !! Widget.id w = None →
     inherited (Widget.id w) = false →
     findMatchingProvider registry w = Some P →
     instances σ !! fresh_ref (instances σ) = None ∧
     activeSearches (onStartCommand w σ) =
     activeSearches
       (activeSearches_assign (Widget.id w) (fresh_ref (instances σ)) σ)).
Proof.
  split; [|split].
  - intros k r Hk _ σ'. subst σ'. store_simpl. repeat split.
    + apply lookup_insert_eq.
    + intros k' Hk'. by rewrite lookup_insert_ne.
    + by apply map_size_insert_None.
  - intros r Hr. rewrite onStartCommand_activeSearches. by rewrite Hr.
  - intros P Hr Hown Hfind. split; [apply fresh_ref_unused|].
    rewrite onStartCommand_activeSearches. unfold creatable.
    by rewrite Hr, Hown, Hfind.
Qed.

(** ** The providers across the operations *)



Lemma delete_slots_providers (slots : list string) σ :
  providers (foldl (λ σ widgetId, activeSearches_delete widgetId σ) σ slots) =
  providers σ.
Proof.
  revert σ. induction slots as [|k slots IH]; intros σ; cbn [foldl]; [done|].
  by rewrite IH.
Qed.

Lemma dispose_providers r σ :
  providers (dispose_searchWidget r σ) = providers σ.
Proof.
  unfold dispose_searchWidget. destruct (instances σ !! r) as [i|]; [|done].
  destruct (searchWidget_isDisposed i); [done|]. store_simpl.
  by rewrite delete_slots_providers.
Qed.



(** C10.  The directory is keyed by the widget's id and by nothing else.
    In every reachable store, let a start command run on [w1] and let [r] be
    the instance then registered under the id of [w1].  For a widget [w2]
    with the same id, whatever its other fields: a start command refocuses
    [r] and leaves the directory and the set of instances as they are, a
    navigation command calls the provider of [r], and the disposal of [r]'s
    overlay leaves nothing under the id of [w2].  For a widget [w2] with
    another id: neither the commands run on [w1] nor the disposal of the
    instance registered for [w1] change what the directory holds under the
    id of [w2]. *)
Theorem directory_keyed_by_widget_id (σ : World) :
  reachable σ →
  ∀ w1 w2,
    let σ1 := execute_start (Some w1) σ in
    (Widget.id w1 = Widget.id w2 →
     ∀ r, activeSearches σ1 !! Widget.id w1 = Some r →
       activeSearches (execute_start (Some w2) σ1) = activeSearches σ1 ∧
       dom (instances (execute_start (Some w2) σ1)) = dom (instances σ1) ∧
       EvFocusInput r ∈ log (execute_start (Some w2) σ1) ∧
       (∀ op, navigated op r σ1 (execute_of op (Some w2) σ1)) ∧
       activeSearches (dispose_searchWidget r σ1) !! Widget.id w2 = None) ∧
    (Widget.id w1 ≠ Widget.id w2 →
       activeSearches σ1 !! Widget.id w2 = activeSearches σ !! Widget.id w2 ∧
       (∀ op, activeSearches (execute_of op (Some w1) σ) !! Widget.id w2 =
              activeSearches σ !! Widget.id w2) ∧
       (∀ r, activeSearches σ !! Widget.id w1 = Some r →
             activeSearches (dispose_searchWidget r σ) !! Widget.id w2 =
             activeSearches σ !! Widget.id w2)).
Proof.
  intros Hreach w1 w2 σ1.
  pose proof (reachable_inv _ Hreach) as Hinv.
  assert (inv σ1) as Hinv1 by by apply (inv_step (ExecuteStart (Some w1))).
  split.
  - intros Hid r Hr. rewrite Hid in Hr. cbn [execute_start].
    destruct (onStartCommand_reuse w2 r σ1 Hinv1 Hr) as (E1 & E2 & _ & _ & E5).
    repeat split; try done.
    + rewrite E5. apply elem_of_app; right.
      do 2 (apply elem_of_cons; right). apply list_elem_of_here.
    + intros op. rewrite execute_of_Some. by apply openBoxOrExecute_navigated.
    + rewrite dispose_activeSearches by done.
      destruct (inv_entry _ Hinv1 _ _ Hr) as (i & -> & <- & _ & ->).
      apply lookup_delete_eq.
  - intros Hid. repeat split.
    + apply (step_activeSearches_other (ExecuteStart (Some w1)));
        [cbn; congruence | done].
    + intros op. destruct op.
      * apply (step_activeSearches_other (ExecuteNext (Some w1)));
          [cbn; congruence | done].
      * apply (step_activeSearches_other (ExecutePrev (Some w1)));
          [cbn; congruence | done].
    + intros r Hr. rewrite dispose_activeSearches by done.
      destruct (inv_entry _ Hinv _ _ Hr) as (i & -> & Hwid & _ & ->).
      rewrite Hwid. by apply lookup_delete_ne.
Qed.

(** * Further properties of the command layer *)

(** ** What an instance is bound to *)

Lemma same_bindings_refl σ σ' :
  instances σ' = instances σ → same_bindings σ σ'.
Proof.
  intros E r. rewrite E. destruct (instances σ !! r); by constructor.
Qed.

Lemma same_bindings_trans σ1 σ2 σ3 :
  same_bindings σ1 σ2 → same_bindings σ2 σ3 → same_bindings σ1 σ3.
Proof.
  intros H12 H23 r. specialize (H12 r). specialize (H23 r).
  destruct H12 as [i1 i2 [Hw Hp]|]; inversion H23 as [? i3 [Hw' Hp']|];
    subst; constructor.
  split; congruence.
Qed.

Lemma same_bindings_write f r i σ :
  instances σ !! r = Some i →
  same_bindings σ (set_instances <[r := set_displayState f i]> σ).
Proof.
  intros Hi q. store_simpl. rewrite lookup_insert. case_decide; subst.
  - rewrite Hi. by constructor.
  - destruct (instances σ !! q); by constructor.
Qed.

Lemma focusInput_same_bindings r σ : same_bindings σ (focusInput r σ).
Proof.
  unfold focusInput. destruct (instances σ !! r) as [i|] eqn:Hi.
  - by apply (same_bindings_write (set_forceFocus true) r i σ).
  - by apply same_bindings_refl.
Qed.

Lemma updateIndices_same_bindings r σ : same_bindings σ (updateIndices r σ).
Proof.
  unfold updateIndices. destruct (instances σ !! r) as [i|] eqn:Hi;
    [|by apply same_bindings_refl].
  destruct (providers σ !! provider i) as [p|];
    [|by apply same_bindings_refl].
  by apply (same_bindings_write
              (set_indices (currentMatchIndex (data p))
                 (length (matches (data p)))) r i σ).
Qed.

Lemma run_same_bindings body σ : same_bindings σ (run body σ).
Proof.
  revert σ. induction body as [|a k IH|p op k _]; intros σ; cbn [run].
  - by apply same_bindings_refl.
  - apply (same_bindings_trans _ (perform a σ)); [|apply IH].
    destruct a as [r]. apply updateIndices_same_bindings.
  - by apply same_bindings_refl.
Qed.

Lemma settle_same_bindings cid σ : same_bindings σ (settle cid σ).
Proof.
  unfold settle.
  destruct (pending σ !! cid) as [s|]; [|by apply same_bindings_refl].
  destruct (providers σ !! awaited_provider s) as [p|];
    [|by apply same_bindings_refl].
  destruct (provider_op _ _ _) as [d|]; [|by apply same_bindings_refl].
  match goal with |- same_bindings _ (run ?k ?τ) =>
    apply (same_bindings_trans _ τ);
      [by apply same_bindings_refl | apply run_same_bindings] end.
Qed.

Lemma delete_slots_instances (slots : list string) σ :
  instances (foldl (λ σ widgetId, activeSearches_delete widgetId σ) σ slots) =
  instances σ.
Proof.
  revert σ. induction slots as [|k slots IH]; intros σ; cbn [foldl]; [done|].
  by rewrite IH.
Qed.

Lemma dispose_same_bindings r σ : same_bindings σ (dispose_searchWidget r σ).
Proof.
  unfold dispose_searchWidget.
  destruct (instances σ !! r) as [i|] eqn:Hi; [|by apply same_bindings_refl].
  destruct (searchWidget_isDisposed i); [by apply same_bindings_refl|].
  intros q. store_simpl. rewrite lookup_insert, delete_slots_instances.
  store_simpl. case_decide; subst.
  - rewrite Hi. by constructor.
  - destruct (instances σ !! q); by constructor.
Qed.

(** A command either keeps the instances and their bindings, or it is the
    creating path of a start and adds exactly one instance, at an unused
    reference, bound to the document and to a provider at an unused
    reference. *)
Lemma onStartCommand_bindings w σ :
  same_bindings σ (onStartCommand w σ) ∨
  (activeSearches σ !! Widget.id w = None ∧
   ∃ P, findMatchingProvider registry w = Some P ∧
        instances (onStartCommand w σ) =
        <[fresh_ref (instances σ) := started w (fresh_ref (providers σ))]>
          (instances σ)).
Proof.
  destruct (activeSearches σ !! Widget.id w) as [r|] eqn:Hr.
  - left. rewrite (onStartCommand_found _ _ _ Hr).
    apply (same_bindings_trans _
             (emit [EvLookup (Widget.id w); EvLookup (Widget.id w)] σ));
      [by apply same_bindings_refl | apply focusInput_same_bindings].
  - destruct (inherited (Widget.id w)) eqn:Hown.
    { left. rewrite (onStartCommand_inherited _ _ Hr Hown).
      by apply same_bindings_refl. }
    destruct (findMatchingProvider registry w) as [P|] eqn:Hfind.
    + right. split; [done|]. exists P. split; [done|].
      by rewrite (onStartCommand_new _ _ _ Hr Hown Hfind).
    + left. rewrite (onStartCommand_no_provider _ _ Hr Hown Hfind).
      by apply same_bindings_refl.
Qed.

Lemma step_bindings s σ :
  same_bindings σ (step s σ) ∨
  ∃ w P,
    target s = Some (Widget.id w) ∧
    activeSearches σ !! Widget.id w = None ∧
    findMatchingProvider registry w = Some P ∧
    instances (step s σ) =
    <[fresh_ref (instances σ) := started w (fresh_ref (providers σ))]>
      (instances σ).
Proof.
  assert (∀ op w,
    same_bindings σ (openBoxOrExecute w (command_at op) σ) ∨
    (activeSearches σ !! Widget.id w = None ∧
     ∃ P, findMatchingProvider registry w = Some P ∧
          instances (openBoxOrExecute w (command_at op) σ) =
          <[fresh_ref (instances σ) := started w (fresh_ref (providers σ))]>
            (instances σ))) as Hnav.
  { intros op w.
    destruct (activeSearches σ !! Widget.id w) as [r|] eqn:Hr.
    - left. rewrite (openBoxOrExecute_found _ _ r) by done.
      apply same_bindings_refl.
      by destruct (command_of_frame op r (emit [EvLookup (Widget.id w)] σ))
        as (_ & -> & _).
    - destruct (inherited (Widget.id w)) eqn:Hown.
      { left. rewrite openBoxOrExecute_inherited by done.
        by apply same_bindings_refl. }
      rewrite openBoxOrExecute_undefined by done.
      destruct (onStartCommand_bindings w (emit [EvLookup (Widget.id w)] σ))
        as [Hsame|(_ & P & Hfind & Heq)]; [by left|].
      right. split; [done|]. by exists P. }
  destruct s as [[w|]|[w|]|[w|]|cid|r];
    cbn [step execute_start execute_next execute_prev target];
    try (left; by apply same_bindings_refl).
  - destruct (onStartCommand_bindings w σ) as [?|(? & P & ? & ?)];
      [by left | right; by exists w, P].
  - destruct (Hnav HighlightNext w) as [?|(? & P & ? & ?)];
      [by left | right; by exists w, P].
  - destruct (Hnav HighlightPrevious w) as [?|(? & P & ? & ?)];
      [by left | right; by exists w, P].
  - left. apply settle_same_bindings.
  - left. apply dispose_same_bindings.
Qed.

(** X3.  Whatever happens next, an instance stays in the store and stays
    bound to the same document and to the same provider: commands, settling
    promises and disposals only ever write its display state and the state
    of its overlay. *)
Theorem step_keeps_binding (s : Step) (σ : World) (r : nat) (i : SearchInstance) :
  instances σ !! r = Some i →
  ∃ i',
    instances (step s σ) !! r = Some i' ∧
    widget i' = widget i ∧
    provider i' = provider i.
Proof.
  intros Hi.
  destruct (step_bindings s σ) as [Hsame|(w & P & _ & _ & _ & Heq)].
  - specialize (Hsame r). rewrite Hi in Hsame.
    inversion Hsame as [? i' [Hw Hp]|]; subst. by exists i'.
  - exists i. rewrite Heq, lookup_insert_ne; [done|].
    intros Hr. rewrite <-Hr, fresh_ref_unused in Hi. done.
Qed.

(** X4.  In every reachable store a provider belongs to one instance only:
    two instances bound to the same provider object are the same instance. *)
Theorem providers_are_exclusive (σ : World) :
  reachable σ →
  ∀ r1 r2 i1 i2,
    instances σ !! r1 = Some i1 → instances σ !! r2 = Some i2 →
    provider i1 = provider i2 → r1 = r2.
Proof.
  induction 1 as [|s σ Hreach IH]; [done|].
  pose proof (reachable_inv _ Hreach) as Hinv.
  intros r1 r2 i1 i2 H1 H2 Hp.
  destruct (step_bindings s σ) as [Hsame|(w & P & _ & _ & _ & Heq)].
  - pose proof (Hsame r1) as S1. pose proof (Hsame r2) as S2.
    rewrite H1 in S1. rewrite H2 in S2.
    inversion S1 as [j1 ? [_ Hp1] E1|]; inversion S2 as [j2 ? [_ Hp2] E2|];
      subst.
    apply (IH r1 r2 j1 j2); congruence.
  - rewrite Heq in H1, H2.
    apply lookup_insert_Some in H1 as [[<- <-]|[Hn1 H1]];
      apply lookup_insert_Some in H2 as [[<- <-]|[Hn2 H2]]; try done.
    + destruct (inv_provider _ Hinv _ _ H2) as [p Hprov].
      rewrite <-Hp in Hprov. cbn [started provider] in Hprov.
      by rewrite fresh_ref_unused in Hprov.
    + destruct (inv_provider _ Hinv _ _ H1) as [p Hprov].
      rewrite Hp in Hprov. cbn [started provider] in Hprov.
      by rewrite fresh_ref_unused in Hprov.
    + by apply (IH r1 r2 i1 i2).
Qed.

(** ** The directory and the live instances *)

(** X1.  In every reachable store the directory and the live instances
    mirror each other.  An entry under an id refers to an instance that
    exists, whose overlay is not disposed, whose document has that id,
    whose provider exists, and whose overlay carries exactly the slot that
    deletes this entry; and every instance whose overlay is not disposed is
    the entry under the id of its document. *)
Theorem directory_mirrors_live_instances (σ : World) :
  reachable σ →
  (∀ k r,
     activeSearches σ !! k = Some r →
     ∃ i p,
       instances σ !! r = Some i ∧
       Widget.id (widget i) = k ∧
       searchWidget_isDisposed i = false ∧
       searchWidget_disposed i = [k] ∧
       providers σ !! provider i = Some p) ∧
  (∀ r i,
     instances σ !! r = Some i →
     searchWidget_isDisposed i = false →
     activeSearches σ !! Widget.id (widget i) = Some r).
Proof.
  intros Hinv%reachable_inv. split.
  - intros k r Hk.
    destruct (inv_entry _ Hinv _ _ Hk) as (i & Hi & Hid & Hslots & Hlive).
    destruct (inv_provider _ Hinv _ _ Hi) as [p Hp].
    by exists i, p.
  - intros r i. apply (inv_live _ Hinv).
Qed.

(** X2.  In every reachable store an instance is registered under one id
    at most: two ids with the same entry are the same id. *)
Theorem directory_is_injective (σ : World) (k1 k2 : string) (r : nat) :
  reachable σ →
  activeSearches σ !! k1 = Some r →
  activeSearches σ !! k2 = Some r →
  k1 = k2.
Proof.
  intros Hinv%reachable_inv H1 H2.
  destruct (inv_entry _ Hinv _ _ H1) as (i1 & Hi1 & Hid1 & _).
  destruct (inv_entry _ Hinv _ _ H2) as (i2 & Hi2 & Hid2 & _).
  congruence.
Qed.

(** X7.  The creating path of the start command.  On a document whose id
    has no entry and is not the name of an inherited member, and for which
    the registry has a provider class, the command constructs one provider of that class in its initial state and
    one instance, both at references unused before; the instance is bound
    to the document and to that provider, has the force-focus flag set and
    one slot on its overlay; it is registered under the document's id.
    Every other entry, instance and provider is as before, no provider
    operation is called, and the effects happen in this order: directory
    read, registry query, provider construction, instance construction,
    attachment to the document's node, focus. *)
Theorem start_creates_instance (w : Widget.t) (σ : World) (P : ISearchProviderConstructor) :
  activeSearches σ !! Widget.id w = None →
  inherited (Widget.id w) = false →
  findMatchingProvider registry w = Some P →
  let σ' := execute_start (Some w) σ in
  ∃ r p i,
    instances σ !! r = None ∧ providers σ !! p = None ∧
    activeSearches σ' = <[Widget.id w := r]> (activeSearches σ) ∧
    instances σ' !! r = Some i ∧
    widget i = w ∧ provider i = p ∧
    forceFocus (displayState i) = true ∧
    searchWidget_disposed i = [Widget.id w] ∧
    searchWidget_isDisposed i = false ∧
    providers σ' !! p = Some {| class_of := P; data := construct P |} ∧
    (∀ q, q ≠ r → instances σ' !! q = instances σ !! q) ∧
    (∀ q, q ≠ p → providers σ' !! q = providers σ !! q) ∧
    pending σ' = pending σ ∧ calls σ' = calls σ ∧
    log σ' = log σ ++ [EvLookup (Widget.id w); EvGetProviderForWidget w;
                       EvNewProvider p; EvNewSearchInstance r;
                       EvAttach r (Widget.node w); EvFocusInput r].
Proof.
  intros Hr Hown Hfind σ'. subst σ'. cbn [execute_start].
  rewrite (onStartCommand_new _ _ _ Hr Hown Hfind).
  exists (fresh_ref (instances σ)), (fresh_ref (providers σ)),
    (started w (fresh_ref (providers σ))).
  store_simpl. rewrite !lookup_insert_eq.
  repeat split; try done; try apply fresh_ref_unused.
  - intros q Hq. by rewrite lookup_insert_ne.
  - intros q Hq. by rewrite lookup_insert_ne.
Qed.

(** X5.  Opening a search on a document that had none and then disposing
    the overlay of the instance so created puts the directory back exactly
    as it was. *)
Theorem start_then_dispose_restores_directory (w : Widget.t) (σ : World) (r : nat) :
  reachable σ →
  activeSearches σ !! Widget.id w = None →
  let σ1 := execute_start (Some w) σ in
  activeSearches σ1 !! Widget.id w = Some r →
  activeSearches (dispose_searchWidget r σ1) = activeSearches σ.
Proof.
  intros Hreach Hnone σ1 Hr.
  assert (inv σ1) as Hinv1
    by (apply (inv_step (ExecuteStart (Some w))); by apply reachable_inv).
  rewrite dispose_activeSearches by done.
  destruct (inv_entry _ Hinv1 _ _ Hr) as (i & -> & -> & _ & ->).
  subst σ1. cbn [execute_start] in *.
  rewrite onStartCommand_activeSearches in *. rewrite Hnone in *.
  destruct (creatable w); [|congruence].
  by apply delete_insert_id.
Qed.

(** X6.  After the overlay of a document's instance has been disposed, a
    start command on the document does not revive that instance: it
    registers another instance, at a reference unused so far, bound to a
    newly constructed provider that is not the provider of the old
    instance. *)
Theorem restart_after_dispose_is_new_instance
    (w : Widget.t) (σ : World) (r : nat) (P : ISearchProviderConstructor) :
  reachable σ →
  activeSearches σ !! Widget.id w = Some r →
  findMatchingProvider registry w = Some P →
  let σ1 := dispose_searchWidget r σ in
  let σ2 := execute_start (Some w) σ1 in
  ∃ r' i',
    activeSearches σ2 !! Widget.id w = Some r' ∧
    r' ≠ r ∧
    instances σ1 !! r' = None ∧
    instances σ2 !! r' = Some i' ∧
    searchWidget_isDisposed i' = false ∧
    providers σ1 !! provider i' = None ∧
    providers σ2 !! provider i' =
      Some {| class_of := P; data := construct P |} ∧
    ∃ i, instances σ2 !! r = Some i ∧
         searchWidget_isDisposed i = true ∧
         provider i ≠ provider i'.
Proof.
  intros Hreach Hr Hfind σ1 σ2.
  pose proof (reachable_own_ids _ Hreach _ _ Hr) as Hown.
  pose proof (reachable_inv _ Hreach) as Hinv.
  destruct (inv_entry _ Hinv _ _ Hr) as (i & Hi & Hid & Hslots & Hlive).
  destruct (inv_provider _ Hinv _ _ Hi) as [p Hp].
  assert (activeSearches σ1 !! Widget.id w = None) as Hnone.
  { subst σ1. rewrite dispose_activeSearches by done.
    rewrite Hi, Hlive, Hid. apply lookup_delete_eq. }
  assert (instances σ1 !! r = Some (disposed i)) as Hi1.
  { subst σ1. rewrite (dispose_live _ _ i) by done. store_simpl.
    apply lookup_insert_eq. }
  assert (providers σ1 = providers σ) as Hprov1
    by apply dispose_providers.
  subst σ2. cbn [execute_start].
  rewrite (onStartCommand_new _ _ _ Hnone Hown Hfind).
  exists (fresh_ref (instances σ1)), (started w (fresh_ref (providers σ1))).
  store_simpl. cbn [started provider searchWidget_isDisposed].
  rewrite !lookup_insert_eq.
  assert (fresh_ref (instances σ1) ≠ r) as Hne.
  { intros Heq. rewrite <-Heq, fresh_ref_unused in Hi1. done. }
  repeat split; try done; try apply fresh_ref_unused.
  exists (disposed i). rewrite lookup_insert_ne by done.
  repeat split; try done.
  cbn [disposed provider]. intros Heq.
  rewrite Heq, Hprov1, fresh_ref_unused in Hp. done.
Qed.

(** ** Navigation *)

(** X8.  The command layer does not serialize navigation.  When two
    navigation commands run one after the other on a document that has an
    instance, the second calls the provider while the call of the first is
    still pending: both calls are made on the instance's provider, in
    command order, both bodies are parked, and nothing has been resolved or
    written to the providers in between. *)
Theorem navigation_is_not_serialized
    (w : Widget.t) (σ : World) (r : nat) (op1 op2 : ProviderOp) :
  reachable σ →
  activeSearches σ !! Widget.id w = Some r →
  let σ2 := execute_of op2 (Some w) (execute_of op1 (Some w) σ) in
  ∃ i,
    instances σ !! r = Some i ∧
    pending σ2 !! calls σ =
      Some {| awaited_provider := provider i; awaited_op := op1;
              continuation := Perform (UpdateIndices r) Return |} ∧
    pending σ2 !! S (calls σ) =
      Some {| awaited_provider := provider i; awaited_op := op2;
              continuation := Perform (UpdateIndices r) Return |} ∧
    log σ2 = log σ ++ [EvLookup (Widget.id w);
                       EvCall (calls σ) (provider i) op1;
                       EvLookup (Widget.id w);
                       EvCall (S (calls σ)) (provider i) op2] ∧
    providers σ2 = providers σ ∧
    instances σ2 = instances σ.
Proof.
  intros Hinv%reachable_inv Hr σ2. subst σ2.
  destruct (inv_entry _ Hinv _ _ Hr) as (i & Hi & _).
  exists i. split; [done|].
  assert (∀ op τ,
            activeSearches τ !! Widget.id w = Some r →
            instances τ !! r = Some i →
            execute_of op (Some w) τ =
            call op r (provider i) (emit [EvLookup (Widget.id w)] τ)) as Hnav.
  { intros op τ Hτ Hiτ. rewrite execute_of_Some.
    rewrite (openBoxOrExecute_found _ _ r) by done.
    by rewrite (command_of_spec _ _ _ i). }
  rewrite (Hnav op1 σ Hr Hi).
  rewrite Hnav by done. store_simpl.
  repeat split.
  - rewrite lookup_insert_ne by lia. apply lookup_insert_eq.
  - apply lookup_insert_eq.
  - by rewrite <-!app_assoc.
Qed.

(** X9.  When a pending call settles in a reachable store it is a call
    made for a navigation command on an instance that is still in the store
    and still bound to the called provider.  If the promise resolves and
    the overlay of that instance has not been disposed, the instance's
    display then shows the provider's state as the operation left it: its
    current index and the length of its match sequence; if the promise
    rejects, no instance and no provider is written.  Either way the call
    is no longer pending. *)
Theorem settled_navigation_syncs_display (cid : nat) (s : Suspended) (σ : World) :
  reachable σ →
  pending σ !! cid = Some s →
  let σ' := settle cid σ in
  pending σ' !! cid = None ∧
  ∃ r i p,
    instances σ !! r = Some i ∧
    provider i = awaited_provider s ∧
    providers σ !! provider i = Some p ∧
    match provider_op (awaited_op s) (class_of p) (data p) with
    | Some d =>
        searchWidget_isDisposed i = false →
        ∃ i',
          instances σ' !! r = Some i' ∧
          provider i' = provider i ∧
          searchWidget_isDisposed i' = false ∧
          providers σ' !! provider i' = Some (set_data d p) ∧
          currentIndex (displayState i') = currentMatchIndex d ∧
          totalMatches (displayState i') = length (matches d)
    | None =>
        instances σ' = instances σ ∧ providers σ' = providers σ
    end.
Proof.
  intros Hinv%reachable_inv Hs σ'. subst σ'.
  destruct (inv_pending _ Hinv _ _ Hs) as (_ & r & i & Hk & Hi & Hprov).
  destruct (inv_provider _ Hinv _ _ Hi) as [p Hp].
  assert (providers σ !! awaited_provider s = Some p) as Hp'
    by by rewrite <-Hprov.
  destruct (provider_op (awaited_op s) (class_of p) (data p)) as [d|] eqn:Hop.
  - rewrite (settle_resolved _ _ _ _ _ _ _ Hs Hp' Hop Hk Hi Hprov).
    store_simpl. split; [apply lookup_delete_eq|].
    exists r, i, p. rewrite Hop. repeat split; try done.
    intros Hlive. eexists. rewrite lookup_insert_eq. split; [done|].
    cbn [set_displayState set_indices provider displayState currentIndex
         totalMatches searchWidget_isDisposed].
    rewrite Hprov, lookup_insert_eq. done.
  - rewrite (settle_rejected _ _ _ _ Hs Hp' Hop).
    store_simpl. split; [apply lookup_delete_eq|].
    exists r, i, p. by rewrite Hop.
Qed.

(** X10.  Two navigation commands in a row on a document that has no
    search yet, whose id is not the name of an inherited member, and that
    has a provider class in the registry: the first only
    opens the search, without calling the provider, and the second
    navigates the instance the first one registered. *)
Theorem second_navigation_navigates
    (w : Widget.t) (σ : World) (P : ISearchProviderConstructor)
    (op1 op2 : ProviderOp) :
  reachable σ →
  activeSearches σ !! Widget.id w = None →
  inherited (Widget.id w) = false →
  findMatchingProvider registry w = Some P →
  let σ1 := execute_of op1 (Some w) σ in
  ∃ r,
    instances σ !! r = None ∧
    activeSearches σ1 !! Widget.id w = Some r ∧
    calls σ1 = calls σ ∧ pending σ1 = pending σ ∧
    navigated op2 r σ1 (execute_of op2 (Some w) σ1).
Proof.
  intros Hreach Hnone Hown Hfind σ1.
  assert (inv σ1) as Hinv1.
  { destruct op1;
      [apply (inv_step (ExecuteNext (Some w)))
      |apply (inv_step (ExecutePrev (Some w)))]; by apply reachable_inv. }
  assert (σ1 = onStartCommand w (emit [EvLookup (Widget.id w)] σ)) as Hσ1.
  { subst σ1. rewrite execute_of_Some.
    by rewrite openBoxOrExecute_undefined. }
  assert (activeSearches (emit [EvLookup (Widget.id w)] σ) !! Widget.id w
          = None) as Hnone' by done.
  rewrite (onStartCommand_new _ _ _ Hnone' Hown Hfind) in Hσ1.
  exists (fresh_ref (instances σ)).
  split; [apply fresh_ref_unused|].
  assert (activeSearches σ1 !! Widget.id w = Some (fresh_ref (instances σ)))
    as Hr by (rewrite Hσ1; apply lookup_insert_eq).
  split; [done|]. split; [by rewrite Hσ1|]. split; [by rewrite Hσ1|].
  rewrite execute_of_Some. by apply openBoxOrExecute_navigated.
Qed.

(** ** Which documents are being searched *)

(** X11.  A start or navigation command only ever adds to the set of ids
    that have an entry, and what it adds depends on the document and the
    registry alone: nothing when the id of the document is the name of an
    inherited member, otherwise the id when the registry has a provider
    class for the document and nothing when it has none.  So the order in
    which searches are opened on two documents does not change which ids
    have an entry. *)
Theorem searched_documents_after_command (w1 w2 : Widget.t) (σ : World) :
  let added w : gset string :=
    if inherited (Widget.id w) then ∅
    else if findMatchingProvider registry w is Some _ then {[Widget.id w]}
         else ∅ in
  dom (activeSearches (execute_start (Some w1) σ))
    = dom (activeSearches σ) ∪ added w1 ∧
  (∀ op, dom (activeSearches (execute_of op (Some w1) σ))
           = dom (activeSearches σ) ∪ added w1) ∧
  dom (activeSearches (execute_start (Some w2) (execute_start (Some w1) σ)))
    = dom (activeSearches (execute_start (Some w1) (execute_start (Some w2) σ))).
Proof.
  intros added.
  assert (∀ w τ, dom (activeSearches (onStartCommand w τ))
                 = dom (activeSearches τ) ∪ added w) as Hstart.
  { intros w τ. rewrite onStartCommand_activeSearches. subst added. cbv beta.
    unfold creatable.
    destruct (activeSearches τ !! Widget.id w) as [r|] eqn:Hr,
      (inherited (Widget.id w)),
      (findMatchingProvider registry w) as [P|];
      try by rewrite (right_id_L ∅ (∪)).
    - apply (elem_of_dom_2 (D:=gset string)) in Hr.
      rewrite (comm_L (∪)). symmetry.
      by apply subseteq_union_1_L, singleton_subseteq_l.
    - by rewrite dom_insert_L, (comm_L (∪)). }
  split; [apply Hstart|]. split.
  - intros op. rewrite execute_of_Some, openBoxOrExecute_activeSearches.
    apply Hstart.
  - cbn [execute_start]. rewrite !Hstart.
    rewrite <-!(assoc_L (∪)). f_equal. apply (comm_L (∪)).
Qed.

(** ** Start without a provider *)

(** X12.  When the registry returns nothing for the document, the start
    command changes neither the directory, nor the set of instances, nor
    the providers, nor the parked bodies.  If moreover the read of the
    document's id finds nothing, that is the id has no entry and is not the
    name of an inherited member, then no instance is written and the log
    gains exactly the directory read and the registry query: nothing is
    raised. *)
Theorem start_without_provider_is_noop (w : Widget.t) (σ : World) :
  (getProviderForWidget registry w σ).1 = None →
  let σ' := execute_start (Some w) σ in
  activeSearches σ' = activeSearches σ ∧
  dom (instances σ') = dom (instances σ) ∧
  providers σ' = providers σ ∧
  pending σ' = pending σ ∧
  calls σ' = calls σ ∧
  (activeSearches σ !! Widget.id w = None →
   inherited (Widget.id w) = false →
   instances σ' = instances σ ∧
   log σ' = log σ ++ [EvLookup (Widget.id w); EvGetProviderForWidget w]).
Proof.
  intros Hnone σ'. subst σ'. cbn [execute_start].
  assert (findMatchingProvider registry w = None) as Hfind.
  { unfold getProviderForWidget in Hnone.
    by destruct (findMatchingProvider registry w). }
  destruct (activeSearches σ !! Widget.id w) as [r|] eqn:Hr.
  - rewrite (onStartCommand_found _ _ _ Hr).
    set (σ1 := emit _ σ).
    destruct (focusInput_frame r σ1) as (-> & -> & -> & ->).
    rewrite focusInput_instances. subst σ1. store_simpl.
    repeat split; try done.
    apply set_eq. intros q. rewrite !elem_of_dom, lookup_alter_is_Some. done.
  - destruct (inherited (Widget.id w)) eqn:Hown.
    + by rewrite (onStartCommand_inherited _ _ Hr Hown).
    + by rewrite (onStartCommand_no_provider _ _ Hr Hown Hfind).
Qed.

(** ** Ids that name inherited members *)

(** X13.  A document whose id is the name of a member that the directory
    object inherits can never be searched.  In every reachable store such
    an id has no entry; the start command on the document raises a
    [TypeError] after its two reads, and each navigation command hands the
    inherited member to its command, which raises before any provider is
    called.  In both cases the registry is not asked and, the log apart,
    the store is as before, whether or not the registry has a provider
    class for the document. *)
Theorem inherited_ids_are_never_searched (w : Widget.t) (σ : World) :
  reachable σ →
  inherited (Widget.id w) = true →
  activeSearches σ !! Widget.id w = None ∧
  execute_start (Some w) σ =
    emit [EvLookup (Widget.id w); EvLookup (Widget.id w); EvTypeError] σ ∧
  ∀ op, execute_of op (Some w) σ =
        emit [EvLookup (Widget.id w); EvTypeError] σ.
Proof.
  intros Hreach Hown.
  assert (activeSearches σ !! Widget.id w = None) as Hnone.
  { destruct (activeSearches σ !! Widget.id w) as [r|] eqn:Hr; [|done].
    pose proof (reachable_own_ids _ Hreach _ _ Hr). congruence. }
  split; [done|]. split.
  - cbn [execute_start]. by apply onStartCommand_inherited.
  - intros op. rewrite execute_of_Some. by apply openBoxOrExecute_inherited.
Qed.

End Commands.

(** * The claims on sample data *)

(** After one start command on [doc], with a registry holding
    [anyProvider]: instance [0], bound to provider [0], is registered under
    the id of [doc]. *)
Lemma started_doc_reachable :
  reachable [anyProvider] blankDisplay
    (execute_start [anyProvider] blankDisplay (Some doc) initial).
Proof.
  apply (reachable_step _ _ (ExecuteStart (Some doc))), reachable_initial.
Defined.

Lemma start_reuses_live_instance_witness :
  let σ := execute_start [anyProvider] blankDisplay (Some doc) initial in
  reachable [anyProvider] blankDisplay σ ∧
  activeSearches σ !! Widget.id doc = Some 0 ∧
  let σ' := execute_start [anyProvider] blankDisplay (Some doc) σ in
  activeSearches σ' = activeSearches σ ∧
  dom (instances σ') = dom (instances σ) ∧
  instances σ' = alter (set_displayState (set_forceFocus true)) 0 (instances σ) ∧
  providers σ' = providers σ ∧
  log σ' = log σ ++ [EvLookup (Widget.id doc); EvLookup (Widget.id doc);
                     EvFocusInput 0].
Proof.
  intros σ.
  assert (activeSearches σ !! Widget.id doc = Some 0) as Hentry
    by (vm_compute; reflexivity).
  split; [exact started_doc_reachable|]. split; [exact Hentry|].
  exact (proj2 (start_reuses_live_instance _ _ σ started_doc_reachable)
           doc 0 Hentry).
Defined.

Lemma dispose_removes_entry_witness :
  let σ := execute_start [anyProvider] blankDisplay (Some doc) initial in
  reachable [anyProvider] blankDisplay σ ∧
  activeSearches σ !! "doc" = Some 0 ∧
  activeSearches (dispose_searchWidget 0 σ) !! "doc" = None.
Proof.
  intros σ.
  assert (activeSearches σ !! "doc" = Some 0) as Hentry
    by (vm_compute; reflexivity).
  split; [exact started_doc_reachable|]. split; [exact Hentry|].
  exact (proj1 (dispose_removes_entry _ _ σ started_doc_reachable)
           "doc" 0 Hentry).
Defined.

(** C3, as stated, fails: a next-match command on a document that has no
    search instance yet creates and registers instance [0], but does not
    execute the navigation on it. *)
Lemma next_on_new_document_not_navigated :
  let σ' := execute_next [anyProvider] blankDisplay (Some doc) initial in
  activeSearches initial !! Widget.id doc = None ∧
  activeSearches σ' !! Widget.id doc = Some 0 ∧
  ¬ navigated HighlightNext 0 initial σ'.
Proof.
  intros σ'. split; [done|]. split; [vm_compute; reflexivity|].
  intros (i & _ & _ & Hpend). vm_compute in Hpend. discriminate.
Qed.

Lemma navigation_executes_or_opens_witness :
  let σ := execute_start [anyProvider] blankDisplay (Some doc) initial in
  reachable [anyProvider] blankDisplay σ ∧
  navigated HighlightNext 0 σ
    (execute_next [anyProvider] blankDisplay (Some doc) σ).
Proof.
  intros σ. split; [exact started_doc_reachable|].
  pose proof (navigation_executes_or_opens _ _ σ started_doc_reachable
                HighlightNext doc) as H.
  assert (activeSearches σ !! Widget.id doc = Some 0) as Hentry
    by (vm_compute; reflexivity).
  cbv zeta in H. rewrite Hentry in H. exact (proj1 H).
Defined.

Lemma start_without_provider_is_noop_witness :
  (getProviderForWidget [notebookProvider] doc initial).1 = None ∧
  let σ' := execute_start [notebookProvider] blankDisplay (Some doc) initial in
  activeSearches σ' = ∅ ∧ instances σ' = ∅ ∧ providers σ' = ∅ ∧
  log σ' = [EvLookup "doc"; EvGetProviderForWidget doc].
Proof.
  assert ((getProviderForWidget [notebookProvider] doc initial).1 = None)
    as Hnone by reflexivity.
  split; [exact Hnone|].
  destruct (start_without_provider_is_noop [notebookProvider] blankDisplay
              doc initial Hnone) as (Hdir & _ & Hprov & _ & _ & Hrest).
  destruct (Hrest eq_refl eq_refl) as [Hinst Hlog].
  repeat split; assumption.
Defined.

(** C4, where the code departs from it.  The shell's current widget has
    the id [constructor], the directory is empty and the registry has no
    provider class for the widget.  The read of line 246 finds the member
    that the directory object inherits, line 247 calls [focusInput] on it,
    and the command raises a [TypeError] after its two reads; the registry
    is never asked. *)
Theorem start_on_inherited_id_raises :
  let w := Widget.mk "constructor" 7 in
  let σ' := execute_start [notebookProvider] blankDisplay (Some w) initial in
  activeSearches initial !! Widget.id w = None ∧
  (getProviderForWidget [notebookProvider] w initial).1 = None ∧
  read (Widget.id w) initial = Some (Inherited "constructor") ∧
  log σ' = [EvLookup "constructor"; EvLookup "constructor"; EvTypeError] ∧
  activeSearches σ' = ∅ ∧ instances σ' = ∅ ∧ providers σ' = ∅.
Proof. vm_compute. done. Qed.

Lemma navigation_updates_after_resolution_witness :
  let σ := execute_start [anyProvider] blankDisplay (Some doc) initial in
  let i := started blankDisplay doc 0 in
  let σ1 := onNextCommand (Instance 0) σ in
  reachable [anyProvider] blankDisplay σ ∧
  instances σ !! 0 = Some i ∧
  log σ1 = log σ ++ [EvCall 0 0 HighlightNext] ∧
  instances σ1 = instances σ ∧
  providers σ1 = providers σ.
Proof.
  intros σ i σ1.
  assert (instances σ !! 0 = Some i) as Hi by (vm_compute; reflexivity).
  split; [exact started_doc_reachable|]. split; [exact Hi|].
  destruct (proj2 (navigation_updates_after_resolution _ _ σ
                     started_doc_reachable) HighlightNext 0 i Hi)
    as (Hlog & Hinst & Hprov & _).
  repeat split; assumption.
Defined.

(** The scenario of the spec: three next-match commands, each settled
    before the following one, move the selection from none to the first
    match, to the second, and back to the first; the display follows. *)
Example three_nexts_wrap_around :
  let run := steps [anyProvider] blankDisplay in
  let shown σ :=
    instances σ !! 0 ≫= λ i,
      Some (currentIndex (displayState i), totalMatches (displayState i)) in
  let start := ExecuteStart (Some doc) in
  let next := ExecuteNext (Some doc) in
  shown (run [start] initial) = Some (Some 0%Z, 0) ∧
  shown (run [start; next] initial) = Some (Some 0%Z, 0) ∧
  shown (run [start; next; Settle 0] initial) = Some (Some 0%Z, 2) ∧
  shown (run [start; next; Settle 0; next; Settle 1] initial)
    = Some (Some 1%Z, 2) ∧
  shown (run [start; next; Settle 0; next; Settle 1; next; Settle 2] initial)
    = Some (Some 0%Z, 2) ∧
  log (run [start; next; Settle 0] initial) =
    [EvLookup "doc"; EvGetProviderForWidget doc; EvNewProvider 0;
     EvNewSearchInstance 0; EvAttach 0 7; EvFocusInput 0;
     EvLookup "doc"; EvCall 0 0 HighlightNext;
     EvResolved 0; EvUpdateIndices 0].
Proof. vm_compute. done. Qed.

(** C7, as stated, fails: assigning under an id that already has an entry
    reports nothing and replaces the entry. *)
Lemma assignment_replaces_existing_entry :
  let σ := execute_start [anyProvider] blankDisplay (Some doc) initial in
  activeSearches σ !! "doc" = Some 0 ∧
  activeSearches (activeSearches_assign "doc" 1 σ) !! "doc" = Some 1.
Proof. vm_compute. done. Qed.

Lemma registration_is_guarded_assignment_witness :
  let σ := execute_start [anyProvider] blankDisplay (Some doc) initial in
  activeSearches initial !! "doc" = None ∧
  activeSearches (activeSearches_assign "doc" 0 initial) !! "doc" = Some 0 ∧
  size (activeSearches (activeSearches_assign "doc" 0 initial)) = 1 ∧
  activeSearches σ !! Widget.id doc = Some 0 ∧
  activeSearches (onStartCommand [anyProvider] blankDisplay doc σ)
    = activeSearches σ.
Proof.
  intros σ.
  assert (activeSearches initial !! "doc" = None) as Hnone by reflexivity.
  assert (activeSearches σ !! Widget.id doc = Some 0) as Hentry
    by (vm_compute; reflexivity).
  destruct (registration_is_guarded_assignment [anyProvider] blankDisplay
              doc initial) as (Hassign & _ & _).
  destruct (Hassign "doc" 0 Hnone eq_refl) as (Hk & _ & Hsize).
  destruct (registration_is_guarded_assignment [anyProvider] blankDisplay
              doc σ) as (_ & Hguard & _).
  exact (conj Hnone (conj Hk (conj Hsize (conj Hentry (Hguard 0 Hentry))))).
Defined.

Lemma getProviderForWidget_first_match_witness :
  ∃ p σ',
    getProviderForWidget [notebookProvider; anyProvider] doc initial
      = (Some p, σ') ∧
    ∃ before P after,
      [notebookProvider; anyProvider] = before ++ P :: after ∧
      Forall (λ Q, canSearchOn Q doc = false) before ∧
      canSearchOn P doc = true ∧
      providers initial !! p = None ∧
      providers σ' !! p = Some {| class_of := P; data := construct P |}.
Proof.
  pose proof (getProviderForWidget_first_match
                [notebookProvider; anyProvider] doc initial) as H.
  destruct (getProviderForWidget [notebookProvider; anyProvider] doc initial)
    as [[p|] σ'] eqn:Hget.
  - exists p, σ'. split; [reflexivity|].
    destruct H as (before & P & after & H1 & H2 & H3 & H4 & H5 & _).
    exists before, P, after. exact (conj H1 (conj H2 (conj H3 (conj H4 H5)))).
  - exfalso. destruct H as (Hall & _).
    apply Forall_cons in Hall as [_ Hall].
    apply Forall_cons in Hall as [Hany _]. discriminate Hany.
Defined.



(** The matches themselves are the same before and after a navigation. *)
Example navigation_keeps_matches :
  let run := steps [anyProvider] blankDisplay in
  let found σ := providers σ !! 0 ≫= λ o, Some (matches (data o)) in
  found (run [ExecuteStart (Some doc)] initial) = Some foo_matches ∧
  found (run [ExecuteStart (Some doc); ExecuteNext (Some doc); Settle 0;
              ExecutePrev (Some doc); Settle 1; Dispose 0] initial)
    = Some foo_matches.
Proof. vm_compute. done. Qed.

Lemma directory_keyed_by_widget_id_witness :
  let same := Widget.mk "doc" 9 in
  let other := Widget.mk "notebook" 9 in
  let σ1 := execute_start [anyProvider] blankDisplay (Some doc) initial in
  reachable [anyProvider] blankDisplay initial ∧
  Widget.id doc = Widget.id same ∧
  Widget.id doc ≠ Widget.id other ∧
  activeSearches σ1 !! Widget.id doc = Some 0 ∧
  activeSearches (execute_start [anyProvider] blankDisplay (Some same) σ1)
    = activeSearches σ1 ∧
  activeSearches (dispose_searchWidget 0 σ1) !! Widget.id same = None ∧
  activeSearches σ1 !! Widget.id other = activeSearches initial !! Widget.id other.
Proof.
  intros same other σ1.
  assert (Widget.id doc = Widget.id same) as Hsame by reflexivity.
  assert (Widget.id doc ≠ Widget.id other) as Hother by discriminate.
  assert (activeSearches σ1 !! Widget.id doc = Some 0) as Hentry
    by (vm_compute; reflexivity).
  pose proof (directory_keyed_by_widget_id [anyProvider] blankDisplay initial
                (reachable_initial _ _) doc same) as [Heq _].
  pose proof (directory_keyed_by_widget_id [anyProvider] blankDisplay initial
                (reachable_initial _ _) doc other) as [_ Hne].
  destruct (Heq Hsame 0 Hentry) as (Hdir & _ & _ & _ & Hgone).
  destruct (Hne Hother) as (Hkept & _).
  exact (conj (reachable_initial _ _)
           (conj Hsame (conj Hother (conj Hentry
              (conj Hdir (conj Hgone Hkept)))))).
Defined.

(** * The further properties on sample data *)

Lemma directory_mirrors_live_instances_witness :
  let σ := execute_start [anyProvider] blankDisplay (Some doc) initial in
  reachable [anyProvider] blankDisplay σ ∧
  activeSearches σ !! "doc" = Some 0 ∧
  ∃ i p,
    instances σ !! 0 = Some i ∧
    Widget.id (widget i) = "doc" ∧
    searchWidget_isDisposed i = false ∧
    searchWidget_disposed i = ["doc"] ∧
    providers σ !! provider i = Some p.
Proof.
  intros σ.
  assert (activeSearches σ !! "doc" = Some 0) as Hentry
    by (vm_compute; reflexivity).
  exact (conj started_doc_reachable (conj Hentry
    (proj1 (directory_mirrors_live_instances _ _ σ started_doc_reachable)
       "doc" 0 Hentry))).
Defined.

Lemma directory_is_injective_witness :
  let σ := execute_start [anyProvider] blankDisplay (Some doc) initial in
  reachable [anyProvider] blankDisplay σ ∧
  activeSearches σ !! "doc" = Some 0 ∧
  "doc" = "doc".
Proof.
  intros σ.
  assert (activeSearches σ !! "doc" = Some 0) as Hentry
    by (vm_compute; reflexivity).
  exact (conj started_doc_reachable (conj Hentry
    (directory_is_injective _ _ σ "doc" "doc" 0 started_doc_reachable
       Hentry Hentry))).
Defined.

Lemma step_keeps_binding_witness :
  let σ := execute_start [anyProvider] blankDisplay (Some doc) initial in
  let i := started blankDisplay doc 0 in
  instances σ !! 0 = Some i ∧
  ∃ i',
    instances (step [anyProvider] blankDisplay (Dispose 0) σ) !! 0 = Some i' ∧
    widget i' = doc ∧ provider i' = 0.
Proof.
  intros σ i.
  assert (instances σ !! 0 = Some i) as Hi by (vm_compute; reflexivity).
  exact (conj Hi
    (step_keeps_binding [anyProvider] blankDisplay (Dispose 0) σ 0 i Hi)).
Defined.

Lemma two_documents_reachable :
  reachable [anyProvider] blankDisplay
    (execute_start [anyProvider] blankDisplay (Some (Widget.mk "notebook" 9))
       (execute_start [anyProvider] blankDisplay (Some doc) initial)).
Proof.
  apply (reachable_step _ _ (ExecuteStart (Some (Widget.mk "notebook" 9)))).
  exact started_doc_reachable.
Defined.

Lemma providers_are_exclusive_witness :
  let σ := execute_start [anyProvider] blankDisplay (Some (Widget.mk "notebook" 9))
             (execute_start [anyProvider] blankDisplay (Some doc) initial) in
  let i := started blankDisplay (Widget.mk "notebook" 9) 1 in
  reachable [anyProvider] blankDisplay σ ∧
  instances σ !! 1 = Some i ∧
  1 = 1.
Proof.
  intros σ i.
  assert (instances σ !! 1 = Some i) as Hi by (vm_compute; reflexivity).
  exact (conj two_documents_reachable (conj Hi
    (providers_are_exclusive _ _ σ two_documents_reachable 1 1 i i Hi Hi
       eq_refl))).
Defined.

(** Two documents searched at once: each has its own instance and its own
    provider. *)
Example two_documents_two_providers :
  let σ := steps [anyProvider] blankDisplay
             [ExecuteStart (Some doc);
              ExecuteStart (Some (Widget.mk "notebook" 9))] initial in
  activeSearches σ !! "doc" = Some 0 ∧
  activeSearches σ !! "notebook" = Some 1 ∧
  (provider <$> instances σ !! 0) = Some 0 ∧
  (provider <$> instances σ !! 1) = Some 1.
Proof. vm_compute. done. Qed.

Lemma start_creates_instance_witness :
  activeSearches initial !! Widget.id doc = None ∧
  inherited (Widget.id doc) = false ∧
  findMatchingProvider [anyProvider] doc = Some anyProvider ∧
  let σ' := execute_start [anyProvider] blankDisplay (Some doc) initial in
  ∃ r p i,
    instances initial !! r = None ∧ providers initial !! p = None ∧
    activeSearches σ' = <[Widget.id doc := r]> (activeSearches initial) ∧
    instances σ' !! r = Some i ∧
    widget i = doc ∧ provider i = p ∧
    forceFocus (displayState i) = true ∧
    searchWidget_disposed i = [Widget.id doc] ∧
    searchWidget_isDisposed i = false ∧
    providers σ' !! p =
      Some {| class_of := anyProvider; data := construct anyProvider |} ∧
    (∀ q, q ≠ r → instances σ' !! q = instances initial !! q) ∧
    (∀ q, q ≠ p → providers σ' !! q = providers initial !! q) ∧
    pending σ' = pending initial ∧ calls σ' = calls initial ∧
    log σ' = log initial ++
             [EvLookup (Widget.id doc); EvGetProviderForWidget doc;
              EvNewProvider p; EvNewSearchInstance r;
              EvAttach r (Widget.node doc); EvFocusInput r].
Proof.
  assert (activeSearches initial !! Widget.id doc = None) as Hnone
    by reflexivity.
  assert (findMatchingProvider [anyProvider] doc = Some anyProvider) as Hfind
    by reflexivity.
  assert (inherited (Widget.id doc) = false) as Hown by reflexivity.
  exact (conj Hnone (conj Hown (conj Hfind
    (start_creates_instance [anyProvider] blankDisplay doc initial anyProvider
       Hnone Hown Hfind)))).
Defined.

Lemma start_then_dispose_restores_directory_witness :
  let σ1 := execute_start [anyProvider] blankDisplay (Some doc) initial in
  reachable [anyProvider] blankDisplay initial ∧
  activeSearches initial !! Widget.id doc = None ∧
  activeSearches σ1 !! Widget.id doc = Some 0 ∧
  activeSearches (dispose_searchWidget 0 σ1) = activeSearches initial.
Proof.
  intros σ1.
  assert (activeSearches initial !! Widget.id doc = None) as Hnone
    by reflexivity.
  assert (activeSearches σ1 !! Widget.id doc = Some 0) as Hentry
    by (vm_compute; reflexivity).
  exact (conj (reachable_initial _ _) (conj Hnone (conj Hentry
    (start_then_dispose_restores_directory [anyProvider] blankDisplay
       doc initial 0 (reachable_initial _ _) Hnone Hentry)))).
Defined.

Lemma restart_after_dispose_is_new_instance_witness :
  let σ := execute_start [anyProvider] blankDisplay (Some doc) initial in
  let σ1 := dispose_searchWidget 0 σ in
  let σ2 := execute_start [anyProvider] blankDisplay (Some doc) σ1 in
  reachable [anyProvider] blankDisplay σ ∧
  activeSearches σ !! Widget.id doc = Some 0 ∧
  findMatchingProvider [anyProvider] doc = Some anyProvider ∧
  ∃ r' i',
    activeSearches σ2 !! Widget.id doc = Some r' ∧
    r' ≠ 0 ∧
    instances σ1 !! r' = None ∧
    instances σ2 !! r' = Some i' ∧
    searchWidget_isDisposed i' = false ∧
    providers σ1 !! provider i' = None ∧
    providers σ2 !! provider i' =
      Some {| class_of := anyProvider; data := construct anyProvider |} ∧
    ∃ i, instances σ2 !! 0 = Some i ∧
         searchWidget_isDisposed i = true ∧
         provider i ≠ provider i'.
Proof.
  intros σ σ1 σ2.
  assert (activeSearches σ !! Widget.id doc = Some 0) as Hentry
    by (vm_compute; reflexivity).
  assert (findMatchingProvider [anyProvider] doc = Some anyProvider) as Hfind
    by reflexivity.
  exact (conj started_doc_reachable (conj Hentry (conj Hfind
    (restart_after_dispose_is_new_instance [anyProvider] blankDisplay
       doc σ 0 anyProvider started_doc_reachable Hentry Hfind)))).
Defined.

Lemma navigation_is_not_serialized_witness :
  let σ := execute_start [anyProvider] blankDisplay (Some doc) initial in
  let σ2 := execute_prev [anyProvider] blankDisplay (Some doc)
              (execute_next [anyProvider] blankDisplay (Some doc) σ) in
  reachable [anyProvider] blankDisplay σ ∧
  activeSearches σ !! Widget.id doc = Some 0 ∧
  ∃ i,
    instances σ !! 0 = Some i ∧
    pending σ2 !! calls σ =
      Some {| awaited_provider := provider i; awaited_op := HighlightNext;
              continuation := Perform (UpdateIndices 0) Return |} ∧
    pending σ2 !! S (calls σ) =
      Some {| awaited_provider := provider i; awaited_op := HighlightPrevious;
              continuation := Perform (UpdateIndices 0) Return |} ∧
    log σ2 = log σ ++ [EvLookup (Widget.id doc);
                       EvCall (calls σ) (provider i) HighlightNext;
                       EvLookup (Widget.id doc);
                       EvCall (S (calls σ)) (provider i) HighlightPrevious] ∧
    providers σ2 = providers σ ∧
    instances σ2 = instances σ.
Proof.
  intros σ σ2.
  assert (activeSearches σ !! Widget.id doc = Some 0) as Hentry
    by (vm_compute; reflexivity).
  exact (conj started_doc_reachable (conj Hentry
    (navigation_is_not_serialized [anyProvider] blankDisplay doc σ 0
       HighlightNext HighlightPrevious started_doc_reachable Hentry))).
Defined.

Lemma navigating_doc_reachable :
  reachable [anyProvider] blankDisplay
    (execute_next [anyProvider] blankDisplay (Some doc)
       (execute_start [anyProvider] blankDisplay (Some doc) initial)).
Proof.
  apply (reachable_step _ _ (ExecuteNext (Some doc))).
  exact started_doc_reachable.
Defined.

Lemma settled_navigation_syncs_display_witness :
  let σ := execute_next [anyProvider] blankDisplay (Some doc)
             (execute_start [anyProvider] blankDisplay (Some doc) initial) in
  let s := {| awaited_provider := 0; awaited_op := HighlightNext;
              continuation := Perform (UpdateIndices 0) Return |} in
  let σ' := settle 0 σ in
  reachable [anyProvider] blankDisplay σ ∧
  pending σ !! 0 = Some s ∧
  pending σ' !! 0 = None ∧
  ∃ r i p,
    instances σ !! r = Some i ∧
    provider i = awaited_provider s ∧
    providers σ !! provider i = Some p ∧
    match provider_op (awaited_op s) (class_of p) (data p) with
    | Some d =>
        searchWidget_isDisposed i = false →
        ∃ i',
          instances σ' !! r = Some i' ∧
          provider i' = provider i ∧
          searchWidget_isDisposed i' = false ∧
          providers σ' !! provider i' = Some (set_data d p) ∧
          currentIndex (displayState i') = currentMatchIndex d ∧
          totalMatches (displayState i') = length (matches d)
    | None =>
        instances σ' = instances σ ∧ providers σ' = providers σ
    end.
Proof.
  intros σ s σ'.
  assert (pending σ !! 0 = Some s) as Hs by (vm_compute; reflexivity).
  exact (conj navigating_doc_reachable (conj Hs
    (settled_navigation_syncs_display [anyProvider] blankDisplay 0 s σ
       navigating_doc_reachable Hs))).
Defined.

Lemma second_navigation_navigates_witness :
  let σ1 := execute_next [anyProvider] blankDisplay (Some doc) initial in
  reachable [anyProvider] blankDisplay initial ∧
  activeSearches initial !! Widget.id doc = None ∧
  inherited (Widget.id doc) = false ∧
  findMatchingProvider [anyProvider] doc = Some anyProvider ∧
  ∃ r,
    instances initial !! r = None ∧
    activeSearches σ1 !! Widget.id doc = Some r ∧
    calls σ1 = calls initial ∧ pending σ1 = pending initial ∧
    navigated HighlightPrevious r σ1
      (execute_prev [anyProvider] blankDisplay (Some doc) σ1).
Proof.
  intros σ1.
  assert (activeSearches initial !! Widget.id doc = None) as Hnone
    by reflexivity.
  assert (findMatchingProvider [anyProvider] doc = Some anyProvider) as Hfind
    by reflexivity.
  assert (inherited (Widget.id doc) = false) as Hown by reflexivity.
  exact (conj (reachable_initial _ _) (conj Hnone (conj Hown (conj Hfind
    (second_navigation_navigates [anyProvider] blankDisplay doc initial
       anyProvider HighlightNext HighlightPrevious
       (reachable_initial _ _) Hnone Hown Hfind))))).
Defined.

Lemma inherited_ids_are_never_searched_witness :
  let w := Widget.mk "toString" 3 in
  let σ := execute_start [anyProvider] blankDisplay (Some doc) initial in
  reachable [anyProvider] blankDisplay σ ∧
  inherited (Widget.id w) = true ∧
  findMatchingProvider [anyProvider] w = Some anyProvider ∧
  activeSearches σ !! Widget.id w = None ∧
  execute_start [anyProvider] blankDisplay (Some w) σ =
    emit [EvLookup (Widget.id w); EvLookup (Widget.id w); EvTypeError] σ ∧
  ∀ op, execute_of [anyProvider] blankDisplay op (Some w) σ =
        emit [EvLookup (Widget.id w); EvTypeError] σ.
Proof.
  intros w σ.
  assert (inherited (Widget.id w) = true) as Hown by reflexivity.
  assert (findMatchingProvider [anyProvider] w = Some anyProvider) as Hfind
    by reflexivity.
  exact (conj started_doc_reachable (conj Hown (conj Hfind
    (inherited_ids_are_never_searched [anyProvider] blankDisplay w σ
       started_doc_reachable Hown)))).
Defined.
